(** * maya-sniffer: the scene parser and the squarified treemap layout

    A shallow embedding of [maya_sniffer.py]: the [Parser] class
    ([on_create], [on_setattr], [parse]) and the embedded squarify
    functions ([layoutrow], [layoutcol], [layout], [leftover],
    [worst_ratio], [squarify], [padded_squarify], [normalize_sizes]).

    Conventions of the embedding.
    - The layout is embedded twice.  In the first part its numbers are
      exact rationals [Q], compared with [==]; that part is used for
      statements in which the rounding of a result plays no part (the
      orientation of a strip on given sides, the exceptions raised, the
      order of the results).  Module [Binary64], at the end, has the same
      functions with the arithmetic of the code, binary64 numbers
      rounded to nearest; what depends on the rounded values is stated
      and decided there.  A division by zero raises, as in Python.
    - A Python exception is a value [Raise e] of the result type [res].
    - Python [str] is [string]; a character is a code point below 256.
    - The dict [result["nodes"]] is a [gmap] whose keys are
      [option string], because the code can index it with [None].
    - [Parser.read] and [os.path.getsize] are the environment: [parse]
      receives the lines and the size they return as arguments. *)

From Stdlib Require Import QArith Qminmax Lqa Lia Ascii Floats.
From stdpp Require Import gmap strings list.
From Equations Require Import Equations.

Local Open Scope Q_scope.

(** ** Exceptions and results *)

Inductive exn : Type :=
| ZeroDivisionError
| ValueError
| IndexError
| KeyError.

Inductive res (A : Type) : Type :=
| Ok (a : A)
| Raise (e : exn).
Arguments Ok {A} a.
Arguments Raise {A} e.

#[global] Instance res_ret : MRet res := fun A a => Ok a.
#[global] Instance res_bind : MBind res := fun A B k m =>
  match m with
  | Ok a => k a
  | Raise e => Raise e
  end.

Definition inspect {A : Type} (a : A) : {b : A | a = b} := exist _ a eq_refl.

(** ** Numbers *)

(** In this part a number is an exact rational and no operation rounds;
    the rounded operations of the code are in [Binary64]. *)

(** [a < b] as a boolean. *)
Definition Qltb (a b : Q) : bool := negb (Qle_bool b a).

(** [a / b]: raises [ZeroDivisionError] when [b] is zero. *)
Definition div (a b : Q) : res Q :=
  if Qeq_bool b 0 then Raise ZeroDivisionError else Ok (a / b).

(** The builtin [sum]: starts from [0] and adds from the left. *)
Definition sum (sizes : list Q) : Q := fold_left Qplus sizes 0.

(** The builtin [max] of two arguments keeps the first one unless the
    second is strictly greater. *)
Definition max2 (a b : Q) : Q := if Qltb a b then b else a.

(** The builtin [max] of a list: [ValueError] on the empty list. *)
Definition max_list (l : list Q) : res Q :=
  match l with
  | [] => Raise ValueError
  | a :: l' => Ok (fold_left max2 l' a)
  end.

(** ** Rectangles *)

(** The dict [{"x": .., "y": .., "dx": .., "dy": ..}]. *)
Record Rect : Type := mkRect {
  rect_x : Q;
  rect_y : Q;
  rect_dx : Q;
  rect_dy : Q
}.

Definition pad_rectangle (rect : Rect) : Rect :=
  let rect :=
    if Qltb 2 (rect_dx rect)
    then mkRect (rect_x rect + 1) (rect_y rect) (rect_dx rect - 2) (rect_dy rect)
    else rect in
  if Qltb 2 (rect_dy rect)
  then mkRect (rect_x rect) (rect_y rect + 1) (rect_dx rect) (rect_dy rect - 2)
  else rect.

(** The [for size in sizes] loop of [layoutrow]: [x] and [width] are
    fixed, [y] advances by [size / width]. *)
Fixpoint layoutrow_loop (sizes : list Q) (x y width : Q) : res (list Rect) :=
  match sizes with
  | [] => Ok []
  | size :: sizes' =>
      h ← div size width;
      rects ← layoutrow_loop sizes' x (y + h) width;
      Ok (mkRect x y width h :: rects)
  end.

Definition layoutrow (sizes : list Q) (x y dx dy : Q) : res (list Rect) :=
  let covered_area := sum sizes in
  width ← div covered_area dy;
  layoutrow_loop sizes x y width.

(** The loop of [layoutcol]: [y] and [height] are fixed, [x] advances by
    [size / height]. *)
Fixpoint layoutcol_loop (sizes : list Q) (x y height : Q) : res (list Rect) :=
  match sizes with
  | [] => Ok []
  | size :: sizes' =>
      w ← div size height;
      rects ← layoutcol_loop sizes' (x + w) y height;
      Ok (mkRect x y w height :: rects)
  end.

Definition layoutcol (sizes : list Q) (x y dx dy : Q) : res (list Rect) :=
  let covered_area := sum sizes in
  height ← div covered_area dx;
  layoutcol_loop sizes x y height.

Definition layout (sizes : list Q) (x y dx dy : Q) : res (list Rect) :=
  if Qle_bool dy dx
  then layoutrow sizes x y dx dy
  else layoutcol sizes x y dx dy.

Definition leftoverrow (sizes : list Q) (x y dx dy : Q) : res (Q * Q * Q * Q) :=
  let covered_area := sum sizes in
  width ← div covered_area dy;
  Ok (x + width, y, dx - width, dy).

Definition leftovercol (sizes : list Q) (x y dx dy : Q) : res (Q * Q * Q * Q) :=
  let covered_area := sum sizes in
  height ← div covered_area dx;
  Ok (x, y + height, dx, dy - height).

Definition leftover (sizes : list Q) (x y dx dy : Q) : res (Q * Q * Q * Q) :=
  if Qle_bool dy dx
  then leftoverrow sizes x y dx dy
  else leftovercol sizes x y dx dy.

(** The list comprehension of [worst_ratio]. *)
Fixpoint ratios (rects : list Rect) : res (list Q) :=
  match rects with
  | [] => Ok []
  | rect :: rects' =>
      a ← div (rect_dx rect) (rect_dy rect);
      b ← div (rect_dy rect) (rect_dx rect);
      rs ← ratios rects';
      Ok (max2 a b :: rs)
  end.

Definition worst_ratio (sizes : list Q) (x y dx dy : Q) : res Q :=
  rects ← layout sizes x y dx dy;
  rs ← ratios rects;
  max_list rs.

(** The [while] loop of [squarify] that looks for the split index. *)
Equations? split_loop (sizes : list Q) (x y dx dy : Q) (i : nat) : res nat
  by wf (length sizes - i)%nat lt :=
  split_loop sizes x y dx dy i with inspect (i <? length sizes)%nat := {
    | exist _ false _ := Ok i
    | exist _ true Hlt with worst_ratio (take i sizes) x y dx dy := {
      | Raise e := Raise e
      | Ok w1 with worst_ratio (take (i + 1) sizes) x y dx dy := {
        | Raise e := Raise e
        | Ok w2 with Qle_bool w2 w1 := {
          | true := split_loop sizes x y dx dy (i + 1)
          | false := Ok i } } } }.
Proof. apply Nat.ltb_lt in Hlt. lia. Qed.

(** [squarify]: the prefix [sizes[:i]] is laid out in the strip, the
    rest goes to the leftover rectangle.  [map float] is the identity on
    [Q]. *)
Equations? squarify (sizes : list Q) (x y dx dy : Q) : res (list Rect)
  by wf (length sizes) lt :=
  squarify [] x y dx dy := Ok [];
  squarify [size] x y dx dy := layout [size] x y dx dy;
  squarify (s1 :: s2 :: sizes) x y dx dy
    with inspect (split_loop (s1 :: s2 :: sizes) x y dx dy 1) := {
    | exist _ (Raise e) _ := Raise e
    | exist _ (Ok i) Hi
        with leftover (take i (s1 :: s2 :: sizes)) x y dx dy := {
      | Raise e := Raise e
      | Ok (leftover_x, leftover_y, leftover_dx, leftover_dy)
          with layout (take i (s1 :: s2 :: sizes)) x y dx dy := {
        | Raise e := Raise e
        | Ok current_rects
            with squarify (drop i (s1 :: s2 :: sizes))
                   leftover_x leftover_y leftover_dx leftover_dy := {
          | Raise e := Raise e
          | Ok remaining_rects := Ok (current_rects ++ remaining_rects) } } } }.
Proof.
  assert (Hge : ∀ l j k, split_loop l x y dx dy j = Ok k → (j ≤ k)%nat).
  { clear. intros l j. funelim (split_loop l x y dx dy j);
      intros k Hk; try discriminate; try (injection Hk as ->; lia).
    match goal with IH : ∀ k, _ → (_ ≤ k)%nat |- _ => apply IH in Hk end. lia. }
  apply Hge in Hi. rewrite length_drop. simpl. lia.
Qed.

Definition padded_squarify (sizes : list Q) (x y dx dy : Q) : res (list Rect) :=
  rects ← squarify sizes x y dx dy;
  Ok (map pad_rectangle rects).

(** ** [normalize_sizes]

    The argument [sizes] is a Python list object that the caller still
    holds.  The function is a state transformer on the contents of that
    object: it returns the contents after the call together with the
    outcome (the fresh list that is returned, or the exception). *)

(** [for index, size in enumerate(sizes): sizes[index] = max([size, minsize])]. *)
Definition floor_loop (sizes : list Q) (minsize : Q) : list Q :=
  foldl (fun (sizes : list Q) (index : nat) =>
           match sizes !! index with
           | Some size => <[index := max2 size minsize]> sizes
           | None => sizes
           end)
        sizes (seq 0 (length sizes)).

(** [list(map(lambda size: size * total_area / total_size, sizes))]. *)
Fixpoint scale (sizes : list Q) (total_area total_size : Q) : res (list Q) :=
  match sizes with
  | [] => Ok []
  | size :: sizes' =>
      v ← div (size * total_area) total_size;
      vs ← scale sizes' total_area total_size;
      Ok (v :: vs)
  end.

Definition default_minimum_size : Q := 1 # 100.

Definition normalize_sizes (sizes : list Q) (dx dy : Q) (minimum_size : Q)
  : list Q * res (list Q) :=
  match max_list sizes with
  | Raise e => (sizes, Raise e)
  | Ok m =>
      let minsize := m * minimum_size in
      let sizes := floor_loop sizes minsize in
      let total_size := sum sizes in
      let total_area := dx * dy in
      (sizes, scale sizes total_area total_size)
  end.

(** ** Strings *)

Local Open Scope string_scope.

(** The newline character. *)
Definition LF : ascii := ascii_of_nat 10.

(** [str.isspace] on the code points below 256. *)
Definition isspace (c : ascii) : bool :=
  let n := nat_of_ascii c in
  ((9 <=? n) && (n <=? 13) || (28 <=? n) && (n <=? 32)
   || (n =? 133) || (n =? 160))%nat.

Fixpoint startswith (s p : string) {struct p} : bool :=
  match p, s with
  | EmptyString, _ => true
  | String a p', String b s' => Ascii.eqb a b && startswith s' p'
  | String _ _, EmptyString => false
  end.
Arguments startswith : simpl never.

Fixpoint lstrip (p : ascii → bool) (s : string) : string :=
  match s with
  | EmptyString => EmptyString
  | String c s' => if p c then lstrip p s' else s
  end.

Fixpoint rstrip (p : ascii → bool) (s : string) : string :=
  match s with
  | EmptyString => EmptyString
  | String c s' =>
      match rstrip p s' with
      | EmptyString => if p c then EmptyString else String c EmptyString
      | t => String c t
      end
  end.

(** [s.strip()]. *)
Definition strip (s : string) : string := rstrip isspace (lstrip isspace s).

(** Membership of a character in the set given to [rstrip(chars)]. *)
Fixpoint char_in (chars : string) (c : ascii) : bool :=
  match chars with
  | EmptyString => false
  | String a chars' => Ascii.eqb a c || char_in chars' c
  end.

(** [s.split()]: the maximal runs of characters that are not spaces. *)
Fixpoint split_from (word : string) (s : string) : list string :=
  match s with
  | EmptyString => match word with EmptyString => [] | _ => [word] end
  | String c s' =>
      if isspace c
      then match word with
           | EmptyString => split_from EmptyString s'
           | _ => word :: split_from EmptyString s'
           end
      else split_from (word ++ String c EmptyString) s'
  end.

Definition split (s : string) : list string := split_from EmptyString s.

(** [comp.index(v)]: [ValueError] when [v] is not in the list. *)
Fixpoint index (comp : list string) (v : string) : res nat :=
  match comp with
  | [] => Raise ValueError
  | c :: comp' =>
      if String.eqb c v then Ok 0%nat
      else i ← index comp' v; Ok (S i)
  end.

(** [comp[i]]: [IndexError] when out of range. *)
Definition getitem (comp : list string) (i : nat) : res string :=
  match comp !! i with
  | Some v => Ok v
  | None => Raise IndexError
  end.

(** [name.replace] of every double quote by nothing. *)
Fixpoint remove_quotes (s : string) : string :=
  match s with
  | EmptyString => EmptyString
  | String c s' =>
      if Ascii.eqb c (ascii_of_nat 34) then remove_quotes s'
      else String c (remove_quotes s')
  end.

(** ** The parser *)

(** One value of [result["nodes"]]. *)
Record NodeStats : Type := mkNodeStats {
  nodeType : option string;
  lines : nat;
  characters : nat
}.

(** [self.result] once [parse] has assigned it. *)
Record Result : Type := mkResult {
  fname : string;
  filesize : Z;
  lineCount : nat;
  totalCharacterCount : nat;
  nodes : gmap (option string) NodeStats
}.

(** The instance attributes; [result = None] is the empty dict that
    [__init__] assigns. *)
Record Parser : Type := mkParser {
  _current_node : option string;
  _current_node_type : option string;
  result : option Result
}.

Definition Parser_init : Parser := mkParser None None None.

Definition on_create (self : Parser) (line : string) : res Parser :=
  let comp := split line in
  index ← index comp "-n";
  node_type ← getitem comp 1;
  name ← getitem comp (index + 1);
  let name := remove_quotes name in
  Ok (mkParser (Some name) (Some node_type) (result self)).

Definition on_setattr (self : Parser) (line : string) : res Parser :=
  match result self with
  | None => Raise KeyError
  | Some r =>
      let current := _current_node self in
      let nodes :=
        match nodes r !! current with
        | None => <[current := mkNodeStats (_current_node_type self) 0 0]> (nodes r)
        | Some _ => nodes r
        end in
      let nodes :=
        alter (fun n => mkNodeStats (nodeType n) (lines n + 1) (characters n))
              current nodes in
      let nodes :=
        alter (fun n => mkNodeStats (nodeType n) (lines n)
                                    (characters n + String.length line))
              current nodes in
      Ok (mkParser (_current_node self) (_current_node_type self)
            (Some (mkResult (fname r) (filesize r) (lineCount r)
                     (totalCharacterCount r) nodes)))
  end.

(** What one turn of the [for line in lines] loop does next. *)
Inductive flow : Type :=
| Next
| Break.

(** The body of the loop of [parse]. *)
Definition parse_line (self : Parser) (line : string) : Parser * res flow :=
  if startswith line "select" then (self, Ok Break)
  else if startswith line "connectAttr" then (self, Ok Break)
  else
    let line := rstrip (char_in (" ;" ++ String LF EmptyString)) (strip line) in
    if startswith line "createNode" then
      match on_create self line with
      | Ok self' => (self', Ok Next)
      | Raise e => (self, Raise e)
      end
    else if startswith line "setAttr" then
      match on_setattr self line with
      | Ok self' => (self', Ok Next)
      | Raise e => (self, Raise e)
      end
    else if bool_decide (_current_node self ≠ None) then
      match on_setattr self line with
      | Ok self' => (self', Ok Next)
      | Raise e => (self, Raise e)
      end
    else (self, Ok Next).

Fixpoint parse_lines (self : Parser) (lines : list string) : Parser * res unit :=
  match lines with
  | [] => (self, Ok tt)
  | line :: lines' =>
      match parse_line self line with
      | (self', Ok Next) => parse_lines self' lines'
      | (self', Ok Break) => (self', Ok tt)
      | (self', Raise e) => (self', Raise e)
      end
  end.

(** [sum([len(line) for line in lines])]. *)
Definition total_len (lines : list string) : nat :=
  fold_left Nat.add (map String.length lines) 0%nat.

(** [parse]: [lines] is what [self.read(fname)] returned and [size] what
    [os.path.getsize(fname)] returned.  The result is the parser after
    the call and whether the call returned or raised. *)
Definition parse (self : Parser) (fname : string) (size : Z) (lines : list string)
  : Parser * res unit :=
  let self :=
    mkParser (_current_node self) (_current_node_type self)
      (Some (mkResult fname size (length lines) (total_len lines) ∅)) in
  parse_lines self lines.

(** A line that ends the loop: it starts with [select] or [connectAttr]. *)
Definition is_terminator (line : string) : bool :=
  startswith line "select" || startswith line "connectAttr".

(** [line.strip().rstrip(" ;\n")], the text the loop classifies. *)
Definition trim (line : string) : string :=
  rstrip (char_in (" ;" ++ String LF EmptyString)) (strip line).

(** The node name that a [createNode] statement introduces. *)
Definition created_name (line : string) : option string :=
  match on_create Parser_init (trim line) with
  | Ok self => _current_node self
  | Raise _ => None
  end.

(** The names introduced by the [createNode] statements that [parse]
    reaches: those before the first terminator and before the first
    statement on which [on_create] raises. *)
Fixpoint created_names (lines : list string) : list string :=
  match lines with
  | [] => []
  | line :: lines' =>
      if is_terminator line then []
      else if startswith (trim line) "createNode" then
        match created_name line with
        | Some name => name :: created_names lines'
        | None => []
        end
      else created_names lines'
  end.

(** The [nodes] of a parser, empty before the first [parse]. *)
Definition nodes_of (self : Parser) : gmap (option string) NodeStats :=
  match result self with
  | Some r => nodes r
  | None => ∅
  end.

(** ** Sample inputs *)

Definition DQ : ascii := ascii_of_nat 34.

Definition quoted (s : string) : string :=
  String DQ (s ++ String DQ EmptyString).

Definition eol (s : string) : string := s ++ String LF EmptyString.

Definition create_line (node_type name : string) : string :=
  eol ("createNode " ++ node_type ++ " -n " ++ quoted name ++ ";").

Definition setattr_line (attr value : string) : string :=
  eol ("setAttr " ++ quoted attr ++ " " ++ value ++ ";").

(** ** The parser: totals *)

Lemma on_setattr_totals self line self' r :
  result self = Some r →
  on_setattr self line = Ok self' →
  ∃ r', result self' = Some r'
        ∧ fname r' = fname r ∧ filesize r' = filesize r
        ∧ lineCount r' = lineCount r
        ∧ totalCharacterCount r' = totalCharacterCount r.
Proof.
  unfold on_setattr. intros -> [= <-]. simpl. eauto 10.
Qed.

Lemma on_setattr_ok self line r :
  result self = Some r → ∃ self', on_setattr self line = Ok self'.
Proof. unfold on_setattr. intros ->. eauto. Qed.

Lemma on_create_result self line self' :
  on_create self line = Ok self' → result self' = result self.
Proof.
  unfold on_create. intros H.
  destruct (index (split line) "-n"); simpl in H; [|done].
  destruct (getitem (split line) 1); simpl in H; [|done].
  destruct (getitem (split line) (a + 1)); simpl in H; [|done].
  by injection H as <-.
Qed.

Lemma parse_line_totals self line r :
  result self = Some r →
  ∃ r', result (parse_line self line).1 = Some r'
        ∧ fname r' = fname r ∧ filesize r' = filesize r
        ∧ lineCount r' = lineCount r
        ∧ totalCharacterCount r' = totalCharacterCount r.
Proof.
  intros Hr. unfold parse_line.
  repeat match goal with
  | |- context [if ?b then _ else _] => destruct b; simpl
  | |- context [on_create ?s ?l] =>
      destruct (on_create s l) eqn:Hc; simpl;
      [apply on_create_result in Hc; rewrite Hc|]
  | |- context [on_setattr ?s ?l] =>
      destruct (on_setattr s l) eqn:Hs; simpl;
      [eapply on_setattr_totals in Hs as (r' & ? & ?); eauto|]
  end; eauto 10.
Qed.

Lemma parse_lines_totals lines : ∀ self r,
  result self = Some r →
  ∃ r', result (parse_lines self lines).1 = Some r'
        ∧ fname r' = fname r ∧ filesize r' = filesize r
        ∧ lineCount r' = lineCount r
        ∧ totalCharacterCount r' = totalCharacterCount r.
Proof.
  induction lines as [|line lines IH]; intros self r Hr; simpl; [eauto 10|].
  destruct (parse_line_totals self line r Hr) as (r1 & Hr1 & E1 & E2 & E3 & E4).
  destruct (parse_line self line) as [self1 [[]|e]]; simpl in *; [|eauto 10..].
  destruct (IH self1 r1 Hr1) as (r2 & ? & ? & ? & ? & ?).
  exists r2. repeat split; congruence.
Qed.

Lemma total_len_sum lines :
  total_len lines = list_sum (map String.length lines).
Proof.
  unfold total_len. generalize (map String.length lines). intros l.
  assert (H : ∀ a, fold_left Nat.add l a = (a + list_sum l)%nat).
  { induction l as [|n l IH]; intros a; simpl; [lia|]. rewrite IH. lia. }
  apply H.
Qed.

Lemma parse_lines_stops (pre : list string) (line : string) (post : list string) :
  is_terminator line = true →
  ∀ self, parse_lines self (pre ++ line :: post) = parse_lines self pre.
Proof.
  intros Hterm. induction pre as [|l pre IH]; intros self; simpl.
  - unfold parse_line. unfold is_terminator in Hterm.
    apply orb_true_iff in Hterm as [Hsel|Hcon].
    + by rewrite Hsel.
    + destruct (startswith line "select"); [done|]. by rewrite Hcon.
  - destruct (parse_line self l) as [self' [[]|e]]; [apply IH|done..].
Qed.

(** C5. After [parse], whatever the lines and whether or not the call
    raised, the result holds [lineCount = len(lines)] and
    [totalCharacterCount] = the sum of the lengths of all the lines;
    a terminator line changes neither.  Only the loop stops there: from
    any state it ends as if the file ended before the terminator. *)
Theorem parse_totals_whole_file self fname size (file_lines : list string)
    (pre post : list string) (rest : string) :
  (∃ r, result (parse self fname size file_lines).1 = Some r
        ∧ lineCount r = length file_lines
        ∧ totalCharacterCount r = total_len file_lines
        ∧ total_len file_lines = list_sum (map String.length file_lines))
  ∧ parse_lines self (pre ++ ("select" ++ rest) :: post) = parse_lines self pre
  ∧ parse_lines self (pre ++ ("connectAttr" ++ rest) :: post) = parse_lines self pre.
Proof.
  split; [|split; apply parse_lines_stops; reflexivity].
  unfold parse.
  match goal with |- context [parse_lines ?s _] =>
    destruct (parse_lines_totals file_lines s _ eq_refl)
      as (r & Hr & _ & _ & Hl & Hc)
  end.
  exists r. simpl in *. split_and!; auto using total_len_sum.
Qed.

(** ** The parser: attribution of a line *)

(** The entry at the current key before a line is attributed: the
    existing one, or the seed that [on_setattr] inserts. *)
Definition entry_before (self : Parser) : NodeStats :=
  default (mkNodeStats (_current_node_type self) 0 0)
          (nodes_of self !! _current_node self).

Lemma on_setattr_spec self r line :
  result self = Some r →
  ∃ self', on_setattr self line = Ok self'
    ∧ _current_node self' = _current_node self
    ∧ _current_node_type self' = _current_node_type self
    ∧ nodes_of self' !! _current_node self =
        Some (mkNodeStats (nodeType (entry_before self))
                (lines (entry_before self) + 1)
                (characters (entry_before self) + String.length line))
    ∧ ∀ k, k ≠ _current_node self → nodes_of self' !! k = nodes_of self !! k.
Proof.
  intros Hr. unfold on_setattr, entry_before, nodes_of. rewrite Hr.
  eexists. split; [reflexivity|]. simpl. split_and!; try done.
  - destruct (nodes r !! _current_node self) as [st|] eqn:Hk; simpl.
    + rewrite !lookup_alter_eq, Hk. done.
    + rewrite !lookup_alter_eq, lookup_insert_eq. done.
  - intros k Hk.
    rewrite !lookup_alter_ne by done.
    destruct (nodes r !! _current_node self); [done|].
    by rewrite lookup_insert_ne.
Qed.

Lemma rstrip_length p s : (String.length (rstrip p s) ≤ String.length s)%nat.
Proof.
  induction s as [|c s IH]; simpl; [lia|].
  destruct (rstrip p s); simpl in *; [destruct (p c); simpl; lia|lia].
Qed.

Lemma lstrip_length p s : (String.length (lstrip p s) ≤ String.length s)%nat.
Proof.
  induction s as [|c s IH]; simpl; [lia|]. destruct (p c); simpl; lia.
Qed.

Lemma trim_length line : (String.length (trim line) ≤ String.length line)%nat.
Proof.
  unfold trim, strip.
  etrans; [apply rstrip_length|]. etrans; [apply rstrip_length|].
  apply lstrip_length.
Qed.

(** C3, as the code has it.  A line that is not a terminator, is not a
    [createNode] statement, and either starts with [setAttr] or is read
    while a node is current, is attributed to the current key: its
    [lines] grows by 1 and its [characters] by the length of the TRIMMED
    line ([line.strip().rstrip(" ;\n")]), which is at most the length of
    the physical line.  The other entries are unchanged. *)
Theorem parse_line_attributes_trimmed self r line :
  result self = Some r →
  is_terminator line = false →
  startswith (trim line) "createNode" = false →
  startswith (trim line) "setAttr" = true ∨ _current_node self ≠ None →
  ∃ self', parse_line self line = (self', Ok Next)
    ∧ nodes_of self' !! _current_node self =
        Some (mkNodeStats (nodeType (entry_before self))
                (lines (entry_before self) + 1)
                (characters (entry_before self) + String.length (trim line)))
    ∧ (String.length (trim line) ≤ String.length line)%nat
    ∧ ∀ k, k ≠ _current_node self → nodes_of self' !! k = nodes_of self !! k.
Proof.
  intros Hr Hterm Hcreate Hattr.
  destruct (on_setattr_spec self r (trim line) Hr) as (self' & Hs & _ & _ & Hk & Hframe).
  exists self'. split_and!; auto using trim_length.
  unfold is_terminator in Hterm. apply orb_false_iff in Hterm as [Hsel Hcon].
  unfold parse_line. rewrite Hsel, Hcon. fold (trim line).
  rewrite Hcreate.
  destruct (startswith (trim line) "setAttr"); [by rewrite Hs|].
  destruct Hattr as [|Hcur]; [done|].
  rewrite bool_decide_eq_true_2 by done. by rewrite Hs.
Qed.

(** The parser that has read [createNode transform -n "pCube1";]. *)
Definition parser_at_pCube1 : Parser :=
  (parse Parser_init "scene.ma" 120 [create_line "transform" "pCube1"]).1.

Lemma parse_line_attributes_trimmed_witness :
  result parser_at_pCube1
    = Some (mkResult "scene.ma" 120 1 34 ∅)
  ∧ ∃ self', parse_line parser_at_pCube1 (setattr_line ".tx" "5") = (self', Ok Next)
    ∧ nodes_of self' !! Some "pCube1" = Some (mkNodeStats (Some "transform") 1 15)
    ∧ String.length (setattr_line ".tx" "5") = 17%nat.
Proof.
  split; [reflexivity|].
  destruct (parse_line_attributes_trimmed parser_at_pCube1
              (mkResult "scene.ma" 120 1 34 ∅) (setattr_line ".tx" "5"))
    as (self' & Hp & Hk & _ & _);
    [reflexivity | reflexivity | reflexivity | left; reflexivity |].
  exists self'. split; [exact Hp|]. split; [exact Hk|]. reflexivity.
Defined.

(** C3, as the spec states it, fails: the file
    [createNode transform -n "pCube1";], [setAttr ".tx" 5;] gives
    [pCube1] 15 characters, the length of the trimmed [setAttr ".tx" 5],
    while the physical line has 17. *)
Lemma attribution_counts_untrimmed_length_counterexample :
  let file_lines := [create_line "transform" "pCube1"; setattr_line ".tx" "5"] in
  ∃ r st, result (parse Parser_init "scene.ma" 120 file_lines).1 = Some r
    ∧ nodes r !! Some "pCube1" = Some st
    ∧ lines st = 1%nat
    ∧ characters st = 15%nat
    ∧ String.length (setattr_line ".tx" "5") = 17%nat
    ∧ characters st ≠ (0 + String.length (setattr_line ".tx" "5"))%nat.
Proof.
  eexists _, _. split; [vm_compute; reflexivity|].
  split; [vm_compute; reflexivity|]. simpl. split_and!; try reflexivity.
  vm_compute. discriminate.
Qed.

(** ** The parser: state kept across calls *)

(** C4, as the code has it.  The current node and type are absent in a
    parser that [__init__] has just built; [parse] does not reset them
    and replaces [result] only: two calls on the same input agree as
    soon as the parsers agree on the current node and type at entry,
    whatever [result] they held; a call on a file with no lines keeps
    the current node and type and stores a fresh result. *)
Theorem parse_depends_on_entry_state self1 self2 fname size (file_lines : list string) :
  _current_node self1 = _current_node self2 →
  _current_node_type self1 = _current_node_type self2 →
  parse self1 fname size file_lines = parse self2 fname size file_lines
  ∧ (parse self1 fname size []).1
    = mkParser (_current_node self1) (_current_node_type self1)
        (Some (mkResult fname size 0 0 ∅))
  ∧ _current_node Parser_init = None
  ∧ _current_node_type Parser_init = None.
Proof.
  intros H1 H2. unfold parse. rewrite H1, H2. done.
Qed.

Lemma parse_depends_on_entry_state_witness :
  let file_lines := [create_line "transform" "pCube1"; setattr_line ".tx" "5"] in
  let used := (parse Parser_init "old.ma" 7 [eol "requires maya;"]).1 in
  parse used "scene.ma" 120 file_lines
  = parse Parser_init "scene.ma" 120 file_lines.
Proof.
  intros file_lines used.
  apply (parse_depends_on_entry_state used Parser_init); reflexivity.
Defined.

(** C4, as the spec states it, fails: after a first call that ends with
    [pCube1] current, a second call on a file that begins with a
    continuation line attributes that line to [pCube1]; a fresh parser
    ignores it. *)
Lemma parse_keeps_current_node_counterexample :
  let used := (parse Parser_init "a.ma" 34 [create_line "transform" "pCube1"]).1 in
  let file_lines := [eol "  -s 4 1 2 3 4;"] in
  _current_node used = Some "pCube1"
  ∧ nodes_of (parse used "b.ma" 16 file_lines).1 !! Some "pCube1"
      = Some (mkNodeStats (Some "transform") 1 12)
  ∧ nodes_of (parse Parser_init "b.ma" 16 file_lines).1 = ∅
  ∧ nodes_of (parse used "b.ma" 16 file_lines).1
    ≠ nodes_of (parse Parser_init "b.ma" 16 file_lines).1.
Proof.
  split_and!; try (vm_compute; reflexivity).
  intros H. apply (f_equal (lookup (Some "pCube1"))) in H.
  vm_compute in H. discriminate.
Qed.

(** ** The parser: what a line does *)

Lemma index_raises comp v e : index comp v = Raise e → e = ValueError.
Proof.
  revert e. induction comp as [|c comp IH]; simpl; intros e He; [congruence|].
  destruct (String.eqb c v); [done|].
  destruct (index comp v); simpl in He; [done|]. eauto.
Qed.

Lemma on_create_cases self line :
  let comp := split line in
  match index comp "-n" with
  | Raise e => e = ValueError ∧ on_create self line = Raise ValueError
  | Ok i =>
      match comp !! (i + 1)%nat with
      | None => on_create self line = Raise IndexError
      | Some name =>
          ∃ node_type, comp !! 1%nat = Some node_type
            ∧ on_create self line
              = Ok (mkParser (Some (remove_quotes name)) (Some node_type) (result self))
      end
  end.
Proof.
  intros comp. unfold on_create. fold comp.
  destruct (index comp "-n") as [i|e] eqn:Hi; simpl.
  - unfold getitem.
    destruct (comp !! (i + 1)%nat) as [name|] eqn:Hn.
    + destruct (comp !! 1%nat) as [ty|] eqn:Hty; simpl; [eauto|].
      apply lookup_ge_None in Hty. apply lookup_lt_Some in Hn. lia.
    + destruct (comp !! 1%nat); simpl; done.
  - apply index_raises in Hi as ->. done.
Qed.

(** Whether and how [on_create] raises does not depend on the parser. *)
Lemma on_create_created_name self line :
  match on_create self (trim line) with
  | Ok self' => created_name line = _current_node self'
                ∧ is_Some (_current_node self')
                ∧ result self' = result self
  | Raise e => created_name line = None
               ∧ on_create Parser_init (trim line) = Raise e
  end.
Proof.
  unfold created_name.
  pose proof (on_create_cases self (trim line)) as H1.
  pose proof (on_create_cases Parser_init (trim line)) as H2.
  simpl in *.
  destruct (index (split (trim line)) "-n") as [i|e].
  - destruct (split (trim line) !! (i + 1)%nat).
    + destruct H1 as (ty1 & _ & ->), H2 as (ty2 & _ & ->). simpl. eauto.
    + rewrite H1, H2. done.
  - destruct H1 as [_ ->], H2 as [_ ->]. done.
Qed.

(** The three ways a turn of the loop can go. *)
Lemma parse_line_cases self r line :
  result self = Some r →
  (is_terminator line = true ∧ parse_line self line = (self, Ok Break))
  ∨ (is_terminator line = false
     ∧ startswith (trim line) "createNode" = true
     ∧ match on_create self (trim line) with
       | Ok self' => parse_line self line = (self', Ok Next)
       | Raise e => parse_line self line = (self, Raise e)
       end)
  ∨ (is_terminator line = false
     ∧ startswith (trim line) "createNode" = false
     ∧ ((∃ self', on_setattr self (trim line) = Ok self'
                  ∧ parse_line self line = (self', Ok Next))
        ∨ parse_line self line = (self, Ok Next))).
Proof.
  intros Hr. unfold is_terminator, parse_line. fold (trim line).
  destruct (startswith line "select"); simpl; [auto|].
  destruct (startswith line "connectAttr"); simpl; [auto|].
  right.
  destruct (startswith (trim line) "createNode"); [left|right];
    (split; [done|]); (split; [done|]).
  - by destruct (on_create self (trim line)).
  - destruct (on_setattr_ok self (trim line) r Hr) as [self' Hs].
    rewrite Hs.
    destruct (startswith (trim line) "setAttr"); [eauto|].
    case_bool_decide; eauto.
Qed.

(** ** The parser: the keys of [nodes] *)

Lemma parse_lines_keys (file_lines : list string) : ∀ self r k,
  result self = Some r →
  is_Some (nodes_of (parse_lines self file_lines).1 !! k) →
  is_Some (nodes_of self !! k)
  ∨ k = _current_node self
  ∨ ∃ name, k = Some name ∧ name ∈ created_names file_lines.
Proof.
  induction file_lines as [|line file_lines IH]; intros self r k Hr Hk;
    simpl in *; [auto|].
  destruct (parse_line_cases self r line Hr)
    as [[Hterm Hp]|[(Hterm & Hc & Hp)|(Hterm & Hc & Hp)]];
    rewrite Hterm.
  - rewrite Hp in Hk. auto.
  - rewrite Hc.
    pose proof (on_create_created_name self line) as Hn.
    destruct (on_create self (trim line)) as [self'|e];
      rewrite Hp in Hk; simpl in Hk; [|auto].
    destruct Hn as (Hname & [name Hsome] & Hres).
    rewrite Hname, Hsome.
    assert (result self' = Some r) as Hr' by congruence.
    destruct (IH self' r k Hr' Hk) as [Hin|[->|(n & -> & Hin)]].
    + left. unfold nodes_of in *. by rewrite <- Hres.
    + right; right. exists name. split; [done|]. apply list_elem_of_here.
    + right; right. exists n. split; [done|]. by apply list_elem_of_further.
  - rewrite Hc.
    destruct Hp as [(self' & Hs & Hp)|Hp]; rewrite Hp in Hk; simpl in Hk.
    + destruct (on_setattr_spec self r (trim line) Hr)
        as (self'' & Hs' & Hcur & _ & _ & Hframe).
      assert (self'' = self') as -> by congruence.
      destruct (on_setattr_totals self (trim line) self' r Hr Hs) as (r' & Hr' & _).
      destruct (IH self' r' k Hr' Hk) as [Hin|[->|Hin]]; [|auto..].
      destruct (decide (k = _current_node self)) as [->|Hne]; [auto|].
      left. by rewrite <- Hframe.
    + eauto.
Qed.

(** C6, as the code has it.  After [parse] on a parser that [__init__]
    has just built, every key of [nodes] that is a name was introduced
    by a [createNode] statement read before the first terminator.
    (Several statements may introduce the same name; they share one
    entry.) *)
Theorem parse_keys_were_created fname size (file_lines : list string) (name : string) :
  is_Some (nodes_of (parse Parser_init fname size file_lines).1 !! Some name) →
  name ∈ created_names file_lines.
Proof.
  unfold parse. intros Hk.
  eapply parse_lines_keys in Hk; [|reflexivity].
  destruct Hk as [Hk|[Hk|(n & [= ->] & Hin)]]; [| |done].
  - change (is_Some ((∅ : gmap (option string) NodeStats) !! Some name)) in Hk.
    rewrite lookup_empty in Hk. by destruct Hk.
  - discriminate.
Qed.

Lemma parse_keys_were_created_witness :
  let file_lines := [create_line "transform" "pCube1"; setattr_line ".tx" "5"] in
  is_Some (nodes_of (parse Parser_init "scene.ma" 120 file_lines).1 !! Some "pCube1")
  ∧ "pCube1" ∈ created_names file_lines.
Proof.
  intros file_lines.
  assert (H : is_Some (nodes_of (parse Parser_init "scene.ma" 120 file_lines).1
                         !! Some "pCube1")).
  { vm_compute. eauto. }
  split; [exact H|].
  exact (parse_keys_were_created "scene.ma" 120 file_lines "pCube1" H).
Defined.

(** C6, as the spec states it, fails: two [createNode] statements with
    the name [ctrl] (Maya allows it under different parents) give one
    key, introduced by two statements, not by exactly one. *)
Lemma key_introduced_by_two_statements_counterexample :
  let file_lines :=
    [create_line "transform" "ctrl"; setattr_line ".tx" "5";
     create_line "joint" "ctrl"; setattr_line ".ty" "2"] in
  ¬ (∀ k, is_Some (nodes_of (parse Parser_init "scene.ma" 120 file_lines).1 !! k) →
          ∃ name, k = Some name
            ∧ length (filter (λ n, n = name) (created_names file_lines)) = 1%nat).
Proof.
  intros file_lines H.
  destruct (H (Some "ctrl")) as (name & [= <-] & Hcount).
  - vm_compute. eauto.
  - vm_compute in Hcount. discriminate.
Qed.

(** ** The parser: [createNode] statements that raise *)

(** A line that the loop passes without stopping: not a terminator, and
    if it is a [createNode] statement then [on_create] accepts it. *)
Definition passes (line : string) : Prop :=
  is_terminator line = false
  ∧ (startswith (trim line) "createNode" = true → is_Some (created_name line)).

Lemma parse_lines_passes (pre : list string) : ∀ self r (rest : list string),
  result self = Some r →
  Forall passes pre →
  ∃ self' r', result self' = Some r'
    ∧ parse_lines self (pre ++ rest) = parse_lines self' rest.
Proof.
  induction pre as [|line pre IH]; intros self r rest Hr Hpre; simpl; [eauto|].
  apply Forall_cons in Hpre as [[Hterm Hok] Hpre].
  destruct (parse_line_cases self r line Hr)
    as [[Hterm' _]|[(_ & Hc & Hp)|(_ & Hc & Hp)]]; [congruence| |].
  - pose proof (on_create_created_name self line) as Hn.
    destruct (on_create self (trim line)) as [self'|e].
    + rewrite Hp. destruct Hn as (_ & _ & Hres).
      apply (IH self' r); [congruence|done].
    + destruct Hn as [Hnone _]. apply Hok in Hc. rewrite Hnone in Hc.
      by destruct Hc.
  - destruct Hp as [(self' & Hs & Hp)|Hp]; rewrite Hp.
    + destruct (on_setattr_totals self (trim line) self' r Hr Hs) as (r' & Hr' & _).
      by apply (IH self' r').
    + by apply (IH self r).
Qed.




(** ** [normalize_sizes] *)

Local Close Scope string_scope.

Lemma fold_left_Qplus (l : list Q) (a : Q) : fold_left Qplus l a == a + sum l.
Proof.
  unfold sum. revert a.
  induction l as [|c l IH]; intros a; simpl; [lra|].
  pose proof (IH (a + c)). pose proof (IH (0 + c)). lra.
Qed.


Lemma sum_cons (a : Q) (l : list Q) : sum (a :: l) == a + sum l.
Proof.
  unfold sum at 1. simpl. pose proof (fold_left_Qplus l (0 + a)). lra.
Qed.

Lemma Qltb_lt (a b : Q) : Qltb a b = true ↔ a < b.
Proof.
  unfold Qltb. rewrite negb_true_iff.
  destruct (Qle_bool b a) eqn:H.
  - apply Qle_bool_iff in H. split; [done|]. intros. lra.
  - split; [|done]. intros _.
    destruct (Qlt_le_dec a b) as [|Hle]; [done|].
    apply Qle_bool_iff in Hle. congruence.
Qed.

Lemma Qltb_ge (a b : Q) : Qltb a b = false ↔ b <= a.
Proof.
  rewrite <- not_true_iff_false, Qltb_lt. split; intros; lra.
Qed.

Lemma max2_spec (a b : Q) : a <= max2 a b ∧ b <= max2 a b ∧ (max2 a b = a ∨ max2 a b = b).
Proof.
  unfold max2. destruct (Qltb a b) eqn:H.
  - apply Qltb_lt in H. split_and!; [lra|lra|auto].
  - apply Qltb_ge in H. split_and!; [lra|lra|auto].
Qed.



(** The loop of [normalize_sizes] overwrites every element with its
    floored value. *)
Lemma floor_loop_map (sizes : list Q) (minsize : Q) :
  floor_loop sizes minsize = map (λ size, max2 size minsize) sizes.
Proof.
  unfold floor_loop.
  assert (H : ∀ (todo front : list Q),
    foldl (λ (sizes : list Q) (index : nat),
             match sizes !! index with
             | Some size => <[index := max2 size minsize]> sizes
             | None => sizes
             end)
          (front ++ todo) (seq (length front) (length todo))
    = front ++ map (λ size, max2 size minsize) todo).
  { induction todo as [|s todo IH]; intros front; simpl; [done|].
    rewrite list_lookup_middle by done.
    rewrite insert_app_r_alt by lia. rewrite Nat.sub_diag. simpl.
    rewrite (cons_middle _ front todo), app_assoc.
    replace (S (length front)) with (length (front ++ [max2 s minsize]))
      by (rewrite length_app; simpl; lia).
    rewrite IH. by rewrite <- app_assoc. }
  apply (H sizes []).
Qed.

Lemma max_list_spec (l : list Q) (m : Q) :
  max_list l = Ok m → m ∈ l ∧ ∀ s, s ∈ l → s <= m.
Proof.
  destruct l as [|a l]; simpl; [done|]. intros [= <-].
  revert a. induction l as [|b l IH]; intros a; simpl.
  - split; [apply list_elem_of_here|].
    intros s ->%list_elem_of_singleton. lra.
  - destruct (IH (max2 a b)) as [Hin Hmax].
    pose proof (max2_spec a b) as (Ha & Hb & Hor).
    split.
    + apply elem_of_cons in Hin as [->|Hin].
      * destruct Hor as [->| ->]; [apply list_elem_of_here|].
        apply list_elem_of_further, list_elem_of_here.
      * by do 2 apply list_elem_of_further.
    + intros s Hs.
      assert (Hm : max2 a b <= fold_left max2 l (max2 a b)).
      { apply Hmax, list_elem_of_here. }
      apply elem_of_cons in Hs as [->|Hs]; [lra|].
      apply elem_of_cons in Hs as [->|Hs]; [lra|].
      by apply Hmax, list_elem_of_further.
Qed.




(** C10.  [normalize_sizes] writes the floored weights into the list
    object it was given: after the call with [[1000, 5]] the caller's
    list holds [[1000, 10]]. *)
Theorem normalize_sizes_overwrites_argument :
  (normalize_sizes [1000; 5] 600 1000 default_minimum_size).1 = [1000; 1000 # 100]
  ∧ (normalize_sizes [1000; 5] 600 1000 default_minimum_size).1 ≠ [1000; 5]
  ∧ (1000 # 100) == 10.
Proof. split_and!; [reflexivity|discriminate|reflexivity]. Qed.

(** ** The layout: unfolding the two loops *)



(** ** The layout of one strip *)

(** What the loop of [layoutrow] builds when no division raises. *)
Fixpoint row_rects (sizes : list Q) (x y width : Q) : list Rect :=
  match sizes with
  | [] => []
  | size :: sizes' =>
      mkRect x y width (size / width)
      :: row_rects sizes' x (y + size / width) width
  end.

(** What the loop of [layoutcol] builds when no division raises. *)
Fixpoint col_rects (sizes : list Q) (x y height : Q) : list Rect :=
  match sizes with
  | [] => []
  | size :: sizes' =>
      mkRect x y (size / height) height
      :: col_rects sizes' (x + size / height) y height
  end.

(** Rectangles of one width [thickness], each below the one before it,
    starting at [(x, y)]. *)
Fixpoint stacked_down (x y thickness : Q) (rects : list Rect) : Prop :=
  match rects with
  | [] => True
  | r :: rects' =>
      rect_x r == x ∧ rect_y r == y ∧ rect_dx r == thickness
      ∧ stacked_down x (rect_y r + rect_dy r) thickness rects'
  end.

(** Rectangles of one height [thickness], each to the right of the one
    before it, starting at [(x, y)]. *)
Fixpoint placed_right (x y thickness : Q) (rects : list Rect) : Prop :=
  match rects with
  | [] => True
  | r :: rects' =>
      rect_x r == x ∧ rect_y r == y ∧ rect_dy r == thickness
      ∧ placed_right (rect_x r + rect_dx r) y thickness rects'
  end.

Lemma layoutrow_loop_cases (sizes : list Q) (x y width : Q) :
  match layoutrow_loop sizes x y width with
  | Ok rects => rects = row_rects sizes x y width
  | Raise e => e = ZeroDivisionError ∧ width == 0 ∧ sizes ≠ []
  end.
Proof.
  revert y. induction sizes as [|size sizes IH]; intros y; simpl; [done|].
  unfold div. destruct (Qeq_bool width 0) eqn:E; simpl.
  - apply Qeq_bool_iff in E. done.
  - specialize (IH (y + size / width)).
    destruct (layoutrow_loop sizes x (y + size / width) width); simpl.
    + by rewrite IH.
    + destruct IH as (-> & Hw & _). done.
Qed.

Lemma layoutcol_loop_cases (sizes : list Q) (x y height : Q) :
  match layoutcol_loop sizes x y height with
  | Ok rects => rects = col_rects sizes x y height
  | Raise e => e = ZeroDivisionError ∧ height == 0 ∧ sizes ≠ []
  end.
Proof.
  revert x. induction sizes as [|size sizes IH]; intros x; simpl; [done|].
  unfold div. destruct (Qeq_bool height 0) eqn:E; simpl.
  - apply Qeq_bool_iff in E. done.
  - specialize (IH (x + size / height)).
    destruct (layoutcol_loop sizes (x + size / height) y height); simpl.
    + by rewrite IH.
    + destruct IH as (-> & Hw & _). done.
Qed.

Lemma Qdiv_eq_0 (a b : Q) : ¬ b == 0 → a / b == 0 → a == 0.
Proof.
  intros Hb H.
  assert (E : a == a / b * b) by (field; done).
  rewrite E, H. ring.
Qed.

(** [layout] returns the rectangles of one strip, or raises
    [ZeroDivisionError]. *)
Lemma layout_cases (sizes : list Q) (x y dx dy : Q) :
  match layout sizes x y dx dy with
  | Ok rects =>
      (dy <= dx → ¬ dy == 0 ∧ rects = row_rects sizes x y (sum sizes / dy))
      ∧ (dx < dy → ¬ dx == 0 ∧ rects = col_rects sizes x y (sum sizes / dx))
  | Raise e => e = ZeroDivisionError ∧ (dx == 0 ∨ dy == 0 ∨ sum sizes == 0)
  end.
Proof.
  unfold layout, layoutrow, layoutcol.
  destruct (Qle_bool dy dx) eqn:Hle.
  - apply Qle_bool_iff in Hle.
    unfold div. destruct (Qeq_bool dy 0) eqn:E; simpl.
    { apply Qeq_bool_iff in E. auto. }
    assert (Hdy : ¬ dy == 0).
    { intros H. apply Qeq_bool_iff in H. congruence. }
    pose proof (layoutrow_loop_cases sizes x y (sum sizes / dy)) as Hloop.
    destruct (layoutrow_loop sizes x y (sum sizes / dy)).
    + split; [done|]. intros. lra.
    + destruct Hloop as (-> & Hw & _). split; [done|].
      right; right. by apply (Qdiv_eq_0 _ dy).
  - assert (Hlt : dx < dy).
    { apply Qnot_le_lt. intros H. apply Qle_bool_iff in H. congruence. }
    unfold div. destruct (Qeq_bool dx 0) eqn:E; simpl.
    { apply Qeq_bool_iff in E. auto. }
    assert (Hdx : ¬ dx == 0).
    { intros H. apply Qeq_bool_iff in H. congruence. }
    pose proof (layoutcol_loop_cases sizes x y (sum sizes / dx)) as Hloop.
    destruct (layoutcol_loop sizes x y (sum sizes / dx)).
    + split; [|done]. intros. lra.
    + destruct Hloop as (-> & Hw & _). split; [done|].
      right; right. by apply (Qdiv_eq_0 _ dx).
Qed.

Lemma row_rects_stacked (sizes : list Q) (x y width : Q) :
  stacked_down x y width (row_rects sizes x y width).
Proof.
  revert y. induction sizes as [|size sizes IH]; intros y; simpl; [done|].
  split_and!; try reflexivity. apply IH.
Qed.

Lemma col_rects_placed (sizes : list Q) (x y height : Q) :
  placed_right x y height (col_rects sizes x y height).
Proof.
  revert x. induction sizes as [|size sizes IH]; intros x; simpl; [done|].
  split_and!; try reflexivity. apply IH.
Qed.

Lemma row_rects_length (sizes : list Q) (x y width : Q) :
  length (row_rects sizes x y width) = length sizes.
Proof.
  revert y. induction sizes as [|size sizes IH]; intros y; simpl; [done|].
  by rewrite IH.
Qed.

Lemma col_rects_length (sizes : list Q) (x y height : Q) :
  length (col_rects sizes x y height) = length sizes.
Proof.
  revert x. induction sizes as [|size sizes IH]; intros x; simpl; [done|].
  by rewrite IH.
Qed.

(** C2, as the code has it.  When the rectangle is at least as wide as
    high ([dx >= dy]) [layout] cuts a strip of fixed WIDTH, the
    thickness [sum(sizes) / dy], and stacks the rectangles top to
    bottom; otherwise it cuts a strip of fixed HEIGHT
    [sum(sizes) / dx] and places the rectangles left to right.  It
    raises only [ZeroDivisionError], when a side or the covered area is
    zero. *)
Theorem layout_orientation (sizes : list Q) (x y dx dy : Q) :
  match layout sizes x y dx dy with
  | Ok rects =>
      length rects = length sizes
      ∧ (dy <= dx → stacked_down x y (sum sizes / dy) rects)
      ∧ (dx < dy → placed_right x y (sum sizes / dx) rects)
  | Raise e => e = ZeroDivisionError ∧ (dx == 0 ∨ dy == 0 ∨ sum sizes == 0)
  end.
Proof.
  pose proof (layout_cases sizes x y dx dy) as H.
  destruct (layout sizes x y dx dy) as [rects|e]; [|done].
  destruct H as [Hrow Hcol]. split_and!.
  - destruct (Qlt_le_dec dx dy) as [Hlt|Hle].
    + destruct (Hcol Hlt) as [_ ->]. apply col_rects_length.
    + destruct (Hrow Hle) as [_ ->]. apply row_rects_length.
  - intros Hle. destruct (Hrow Hle) as [_ ->]. apply row_rects_stacked.
  - intros Hlt. destruct (Hcol Hlt) as [_ ->]. apply col_rects_placed.
Qed.

Lemma layout_orientation_witness :
  ∃ r1 r2, layout [2; 2] 0 0 4 2 = Ok [r1; r2]
    ∧ stacked_down 0 0 (sum [2; 2] / 2) [r1; r2]
    ∧ rect_dx r1 == 2 ∧ rect_dx r2 == 2
    ∧ rect_y r2 == rect_y r1 + rect_dy r1.
Proof.
  pose proof (layout_orientation [2; 2] 0 0 4 2) as H.
  exists (mkRect 0 0 (4 # 2) (4 # 4)), (mkRect 0 (0 + (4 # 4)) (4 # 2) (4 # 4)).
  change (layout [2; 2] 0 0 4 2)
    with (Ok [mkRect 0 0 (4 # 2) (4 # 4); mkRect 0 (0 + (4 # 4)) (4 # 2) (4 # 4)]) in H.
  destruct H as (_ & Hrow & _).
  split; [reflexivity|]. split; [apply Hrow; discriminate|].
  split_and!; reflexivity.
Defined.

(** C2, as the spec states it, fails: in a rectangle 4 wide and 2 high
    the weights [[2, 2]] are not placed left to right in a row: the
    second rectangle starts at the same [x] as the first, below it. *)
Lemma layout_wide_is_not_a_row_counterexample :
  ∃ rects, layout [2; 2] 0 0 4 2 = Ok rects
    ∧ 2 <= 4
    ∧ ∀ thickness, ¬ placed_right 0 0 thickness rects.
Proof.
  eexists. split; [reflexivity|]. split; [discriminate|].
  intros thickness (_ & _ & _ & Hx & _). simpl in Hx.
  revert Hx. unfold Qeq. simpl. lia.
Qed.

(** ** The area of a rectangle is its weight *)

Definition area (r : Rect) : Q := rect_dx r * rect_dy r.











(** ** Geometry of rectangles *)




(** The sum of the areas. *)
Definition total_area (rects : list Rect) : Q := sum (map area rects).











(** ** Positive weights *)



(** * Further properties of the layout *)

(** ** Padding *)





(** ** The worst aspect ratio *)





(** ** [squarify] on one weight *)



(** ** A weight of zero *)








(** ** [normalize_sizes]: outcomes *)

Lemma scale_cases (sizes : list Q) (total_area total_size : Q) :
  match scale sizes total_area total_size with
  | Ok out => length out = length sizes ∧ (sizes ≠ [] → ¬ total_size == 0)
  | Raise e => e = ZeroDivisionError ∧ sizes ≠ [] ∧ total_size == 0
  end.
Proof.
  induction sizes as [|size sizes IH]; simpl; [done|].
  unfold div. destruct (Qeq_bool total_size 0) eqn:E; simpl.
  { apply Qeq_bool_iff in E. done. }
  assert (Hne : ¬ total_size == 0).
  { intros H. apply Qeq_bool_iff in H. congruence. }
  destruct (scale sizes total_area total_size); simpl.
  - destruct IH as [-> _]. done.
  - by destruct IH as (_ & _ & ?).
Qed.

(** [normalize_sizes] raises in two cases only: [ValueError] on the
    empty list, which it leaves empty, and [ZeroDivisionError] when the
    floored weights sum to zero, after it has overwritten the list it
    was given.  Otherwise it returns one weight per weight given. *)
Theorem normalize_sizes_outcomes (sizes : list Q) (dx dy minimum_size : Q) :
  match normalize_sizes sizes dx dy minimum_size with
  | (after, Ok out) =>
      sizes ≠ [] ∧ ¬ sum after == 0
      ∧ length out = length sizes ∧ length after = length sizes
  | (after, Raise e) =>
      (sizes = [] ∧ after = [] ∧ e = ValueError)
      ∨ (sizes ≠ [] ∧ sum after == 0 ∧ e = ZeroDivisionError
         ∧ ∃ m, max_list sizes = Ok m
             ∧ after = map (λ size, max2 size (m * minimum_size)) sizes)
  end.
Proof.
  unfold normalize_sizes.
  destruct sizes as [|s sizes]; simpl; [by left|].
  set (l := s :: sizes). set (m := fold_left max2 sizes s).
  pose proof (scale_cases (floor_loop l (m * minimum_size)) (dx * dy)
                (sum (floor_loop l (m * minimum_size)))) as H.
  assert (Hlen : length (floor_loop l (m * minimum_size)) = length l).
  { by rewrite floor_loop_map, length_map. }
  destruct (scale _ _ _) as [out|e].
  - destruct H as [Hout Hsum]. split_and!; [done| |by rewrite Hout, Hlen|done].
    apply Hsum. rewrite floor_loop_map. done.
  - destruct H as (-> & _ & Hsum). right. split_and!; [done..|].
    exists m. split; [done|]. apply floor_loop_map.
Qed.

Lemma sum_floored_zero (sizes : list Q) (minsize : Q) :
  Forall (λ size, size == 0) sizes → minsize == 0 →
  sum (map (λ size, max2 size minsize) sizes) == 0.
Proof.
  intros Hzero Hmin. induction Hzero as [|size sizes Hsize _ IH]; simpl.
  { reflexivity. }
  rewrite sum_cons, IH.
  pose proof (max2_spec size minsize) as (_ & _ & [-> | ->]); lra.
Qed.

(** Weights that are all zero make [normalize_sizes] raise
    [ZeroDivisionError]: the floor is zero as well, and the weights are
    divided by their sum. *)
Theorem normalize_sizes_all_zero_raises
    (sizes : list Q) (dx dy minimum_size : Q) :
  sizes ≠ [] → Forall (λ size, size == 0) sizes →
  (normalize_sizes sizes dx dy minimum_size).2 = Raise ZeroDivisionError.
Proof.
  intros Hne Hzero.
  unfold normalize_sizes.
  destruct (max_list sizes) as [m|e] eqn:Hmax;
    [|destruct sizes; [done|discriminate]].
  simpl. rewrite floor_loop_map.
  assert (Hm : m == 0).
  { apply max_list_spec in Hmax as [Hin _].
    eapply Forall_forall in Hzero; [|exact Hin]. done. }
  assert (Hsum : sum (map (λ size, max2 size (m * minimum_size)) sizes) == 0).
  { apply sum_floored_zero; [done|]. rewrite Hm. ring. }
  pose proof (scale_cases (map (λ size, max2 size (m * minimum_size)) sizes)
                (dx * dy)
                (sum (map (λ size, max2 size (m * minimum_size)) sizes))) as H.
  destruct (scale _ _ _) as [out|e].
  - destruct H as [_ H]. exfalso. apply H; [|done]. by destruct sizes.
  - by destruct H as (-> & _).
Qed.

Lemma normalize_sizes_all_zero_raises_witness :
  (normalize_sizes [0; 0; 0] 300 200 default_minimum_size).2
  = Raise ZeroDivisionError.
Proof.
  apply (normalize_sizes_all_zero_raises [0; 0; 0] 300 200 default_minimum_size);
    [discriminate|].
  repeat (apply Forall_cons; split; [reflexivity|]). constructor.
Defined.

(** ** [normalize_sizes]: the weights it returns *)






(** * Further properties of the parser *)

Local Open Scope string_scope.

(** ** How [parse] ends *)

Lemma parse_lines_outcome (file_lines : list string) : ∀ self r,
  result self = Some r →
  (parse_lines self file_lines).2 = Ok tt
  ∨ ∃ (pre : list string) (line : string) (post : list string),
      file_lines = (pre ++ line :: post)%list
      ∧ Forall passes pre
      ∧ is_terminator line = false
      ∧ startswith (trim line) "createNode" = true
      ∧ match index (split (trim line)) "-n" with
        | Raise _ => (parse_lines self file_lines).2 = Raise ValueError
        | Ok i =>
            split (trim line) !! (i + 1)%nat = None
            ∧ (parse_lines self file_lines).2 = Raise IndexError
        end.
Proof.
  induction file_lines as [|line rest IH]; intros self r Hr; simpl; [by left|].
  assert (Hcons : ∀ self' r', result self' = Some r' →
            passes line →
            parse_line self line = (self', Ok Next) →
            (parse_lines self' rest).2 = Ok tt
            ∨ ∃ (pre : list string) (l : string) (post : list string),
                (line :: rest = pre ++ l :: post)%list
                ∧ Forall passes pre
                ∧ is_terminator l = false
                ∧ startswith (trim l) "createNode" = true
                ∧ match index (split (trim l)) "-n" with
                  | Raise _ => (parse_lines self' rest).2 = Raise ValueError
                  | Ok i =>
                      split (trim l) !! (i + 1)%nat = None
                      ∧ (parse_lines self' rest).2 = Raise IndexError
                  end).
  { intros self' r' Hr' Hpass _.
    destruct (IH self' r' Hr') as [Hok|(pre & l & post & -> & Hpre & H)];
      [by left|right].
    exists (line :: pre), l, post. split; [done|].
    split; [by constructor|done]. }
  destruct (parse_line_cases self r line Hr)
    as [[Hterm Hp]|[(Hterm & Hc & Hp)|(Hterm & Hc & Hp)]].
  - rewrite Hp. by left.
  - pose proof (on_create_created_name self line) as Hn.
    pose proof (on_create_cases self (trim line)) as Hcases. simpl in Hcases.
    destruct (on_create self (trim line)) as [self'|e] eqn:Hcreate.
    + rewrite Hp. destruct Hn as (Hname & Hsome & Hres).
      apply (Hcons self' r); [congruence| |done].
      split; [done|]. intros _. by rewrite Hname.
    + rewrite Hp. simpl. right. exists [], line, rest.
      split; [done|]. split; [constructor|]. split; [done|]. split; [done|].
      destruct (index (split (trim line)) "-n") as [i|e'].
      * destruct (split (trim line) !! (i + 1)%nat) as [name|].
        { by destruct Hcases as (ty & _ & ?). }
        split; [done|]. congruence.
      * destruct Hcases as [_ Hcases]. congruence.
  - assert (Hpass : passes line) by (split; [done|congruence]).
    destruct Hp as [(self' & Hs & Hp)|Hp]; rewrite Hp.
    + destruct (on_setattr_totals self (trim line) self' r Hr Hs)
        as (r' & Hr' & _).
      by apply (Hcons self' r').
    + by apply (Hcons self r).
Qed.

(** [parse] ends in one of three ways only: it returns, or it raises
    [ValueError] at a [createNode] statement with no [-n] token, or
    [IndexError] at one whose first [-n] token is the last token; the
    statement is one that the loop reaches.  It never raises [KeyError],
    whatever the parser held before, and no other line makes it fail. *)
Theorem parse_raises_only_on_create self fname size (file_lines : list string) :
  let outcome := (parse self fname size file_lines).2 in
  outcome = Ok tt
  ∨ ∃ (pre : list string) (line : string) (post : list string),
      file_lines = (pre ++ line :: post)%list
      ∧ Forall passes pre
      ∧ is_terminator line = false
      ∧ startswith (trim line) "createNode" = true
      ∧ match index (split (trim line)) "-n" with
        | Raise _ => outcome = Raise ValueError
        | Ok i =>
            split (trim line) !! (i + 1)%nat = None
            ∧ outcome = Raise IndexError
        end.
Proof.
  unfold parse. simpl. by eapply parse_lines_outcome.
Qed.

(** [parse] returns when every line up to the first terminator, or up to
    the end of the file, passes: each [createNode] statement among them
    has a token after its first [-n]. *)
Theorem parse_returns_when_creates_accepted self fname size
    (pre rest : list string) :
  Forall passes pre →
  (rest = [] ∨ ∃ line post, rest = line :: post ∧ is_terminator line = true) →
  (parse self fname size (pre ++ rest)%list).2 = Ok tt.
Proof.
  intros Hpre Hrest. unfold parse.
  match goal with |- context [parse_lines ?s _] =>
    destruct (parse_lines_passes pre s _ rest eq_refl Hpre)
      as (self' & r' & Hr' & ->)
  end.
  destruct Hrest as [->|(line & post & -> & Hterm)]; [done|].
  by rewrite (parse_lines_stops [] line post Hterm).
Qed.

Lemma parse_returns_when_creates_accepted_witness :
  (parse Parser_init "scene.ma" 120
     ([create_line "transform" "pCube1"; setattr_line ".tx" "5"]
      ++ [eol "select -ne :time1;"; eol "createNode broken;"])%list).2
  = Ok tt.
Proof.
  apply (parse_returns_when_creates_accepted Parser_init "scene.ma" 120
           [create_line "transform" "pCube1"; setattr_line ".tx" "5"]
           [eol "select -ne :time1;"; eol "createNode broken;"]).
  - apply Forall_cons; split.
    { split; [reflexivity|]. intros _. vm_compute. eauto. }
    apply Forall_cons; split.
    { split; [reflexivity|]. intros H. vm_compute in H. discriminate H. }
    constructor.
  - right. eexists _, _. split; reflexivity.
Defined.

(** ** What the entries add up to *)

(** The characters, and the lines, attributed to all the nodes
    together. *)
Definition attributed_characters (m : gmap (option string) NodeStats) : nat :=
  map_fold (λ _ st acc, (characters st + acc)%nat) 0%nat m.

Definition attributed_lines (m : gmap (option string) NodeStats) : nat :=
  map_fold (λ _ st acc, (lines st + acc)%nat) 0%nat m.

Lemma map_fold_add_insert (g : NodeStats → nat)
    (m : gmap (option string) NodeStats) (k : option string) (st : NodeStats) :
  match m !! k with
  | Some old =>
      (map_fold (λ _ st acc, g st + acc) 0 (<[k := st]> m) + g old
       = map_fold (λ _ st acc, g st + acc) 0 m + g st)%nat
  | None =>
      (map_fold (λ _ st acc, g st + acc) 0 (<[k := st]> m)
       = map_fold (λ _ st acc, g st + acc) 0 m + g st)%nat
  end.
Proof.
  assert (Hcomm : ∀ (z1 z2 : NodeStats) (y : nat),
            (g z1 + (g z2 + y) = g z2 + (g z1 + y))%nat) by (intros; lia).
  destruct (m !! k) as [old|] eqn:Hk.
  - rewrite <- (insert_delete_eq m k st).
    rewrite map_fold_insert_L.
    + rewrite (map_fold_delete_L _ _ k old m).
      * lia.
      * intros. apply Hcomm.
      * done.
    + intros. apply Hcomm.
    + apply lookup_delete_eq.
  - rewrite map_fold_insert_L.
    + lia.
    + intros. apply Hcomm.
    + done.
Qed.

Lemma on_setattr_nodes self r line :
  result self = Some r →
  ∃ self' r', on_setattr self line = Ok self' ∧ result self' = Some r'
    ∧ nodes_of self'
      = <[_current_node self :=
            mkNodeStats (nodeType (entry_before self))
              (lines (entry_before self) + 1)
              (characters (entry_before self) + String.length line)]>
          (nodes_of self).
Proof.
  intros Hr.
  destruct (on_setattr_spec self r line Hr)
    as (self' & Hs & _ & _ & Hcur & Hframe).
  destruct (on_setattr_totals self line self' r Hr Hs) as (r' & Hr' & _).
  exists self', r'. split; [done|]. split; [done|].
  apply map_eq. intros k.
  destruct (decide (k = _current_node self)) as [->|Hne].
  - by rewrite lookup_insert_eq.
  - rewrite lookup_insert_ne by done. by apply Hframe.
Qed.

Lemma on_setattr_adds self r line self' :
  result self = Some r →
  on_setattr self line = Ok self' →
  attributed_characters (nodes_of self')
  = (attributed_characters (nodes_of self) + String.length line)%nat
  ∧ attributed_lines (nodes_of self')
    = (attributed_lines (nodes_of self) + 1)%nat.
Proof.
  intros Hr Hs.
  destruct (on_setattr_nodes self r line Hr) as (self'' & r' & Hs' & _ & Hn).
  assert (self'' = self') as -> by congruence. rewrite Hn.
  unfold attributed_characters, attributed_lines, entry_before.
  split.
  - pose proof (map_fold_add_insert characters (nodes_of self)
                  (_current_node self)
                  (mkNodeStats (nodeType (entry_before self))
                     (lines (entry_before self) + 1)
                     (characters (entry_before self) + String.length line)))
      as H.
    unfold entry_before in *.
    destruct (nodes_of self !! _current_node self); simpl in *; lia.
  - pose proof (map_fold_add_insert lines (nodes_of self)
                  (_current_node self)
                  (mkNodeStats (nodeType (entry_before self))
                     (lines (entry_before self) + 1)
                     (characters (entry_before self) + String.length line)))
      as H.
    unfold entry_before in *.
    destruct (nodes_of self !! _current_node self); simpl in *; lia.
Qed.

Lemma parse_line_adds self r line :
  result self = Some r →
  (attributed_characters (nodes_of (parse_line self line).1)
   ≤ attributed_characters (nodes_of self) + String.length line)%nat
  ∧ (attributed_lines (nodes_of (parse_line self line).1)
     ≤ attributed_lines (nodes_of self) + 1)%nat.
Proof.
  intros Hr.
  destruct (parse_line_cases self r line Hr)
    as [[_ Hp]|[(_ & _ & Hp)|(_ & _ & Hp)]].
  - rewrite Hp. simpl. lia.
  - pose proof (on_create_created_name self line) as Hn.
    destruct (on_create self (trim line)) as [self'|e]; rewrite Hp; simpl;
      [|lia].
    destruct Hn as (_ & _ & Hres). unfold nodes_of. rewrite Hres. lia.
  - destruct Hp as [(self' & Hs & Hp)|Hp]; rewrite Hp; simpl; [|lia].
    destruct (on_setattr_adds self r (trim line) self' Hr Hs) as [-> ->].
    pose proof (trim_length line). lia.
Qed.

Lemma parse_lines_adds (file_lines : list string) : ∀ self r,
  result self = Some r →
  (attributed_characters (nodes_of (parse_lines self file_lines).1)
   ≤ attributed_characters (nodes_of self)
     + list_sum (map String.length file_lines))%nat
  ∧ (attributed_lines (nodes_of (parse_lines self file_lines).1)
     ≤ attributed_lines (nodes_of self) + length file_lines)%nat.
Proof.
  induction file_lines as [|line rest IH]; intros self r Hr; simpl; [lia|].
  pose proof (parse_line_adds self r line Hr) as [Hc Hl].
  destruct (parse_line_totals self line r Hr) as (r' & Hr' & _).
  destruct (parse_line self line) as [self' [[]|e]]; simpl in *; [|lia..].
  destruct (IH self' r' Hr'). lia.
Qed.

(** After [parse], the characters attributed to all the nodes together
    do not exceed [totalCharacterCount], and the lines attributed do not
    exceed [lineCount]: the shares that the window shows never add up to
    more than the whole file. *)
Theorem parse_attributes_at_most_the_file self fname size
    (file_lines : list string) :
  ∃ r, result (parse self fname size file_lines).1 = Some r
    ∧ (attributed_characters (nodes r) ≤ totalCharacterCount r)%nat
    ∧ (attributed_lines (nodes r) ≤ lineCount r)%nat.
Proof.
  unfold parse.
  match goal with |- context [parse_lines ?s _] =>
    destruct (parse_lines_totals file_lines s _ eq_refl)
      as (r & Hr & _ & _ & Hl & Hc);
    pose proof (parse_lines_adds file_lines s _ eq_refl) as [Hchars Hlines]
  end.
  exists r. split; [done|]. unfold nodes_of in *. rewrite Hr in *.
  simpl in *. rewrite Hl, Hc, total_len_sum.
  unfold attributed_characters, attributed_lines in *.
  rewrite map_fold_empty in *. lia.
Qed.

(** ** Where an entry comes from *)

(** [line] is a [createNode] statement that [on_create] accepts, with
    name [name] and type [node_type]. *)
Definition creates (line : string) (name : string) (node_type : option string)
  : Prop :=
  startswith (trim line) "createNode" = true
  ∧ on_create Parser_init (trim line)
    = Ok (mkParser (Some name) node_type None).

(** The current node, and every entry under a name, come from a
    statement among [seen]; every such entry has at least one line. *)
Definition from_statements (seen : list string) (self : Parser) : Prop :=
  (∀ name, _current_node self = Some name →
     ∃ line, line ∈ seen ∧ creates line name (_current_node_type self))
  ∧ (∀ name st, nodes_of self !! Some name = Some st →
       (1 ≤ lines st)%nat
       ∧ ∃ line, line ∈ seen ∧ creates line name (nodeType st)).

Lemma from_statements_more (seen : list string) (line : string) (self : Parser) :
  from_statements seen self → from_statements (seen ++ [line])%list self.
Proof.
  intros [Hcur Hnodes]. split.
  - intros name Hname. destruct (Hcur name Hname) as (l & Hl & Hc).
    exists l. split; [|done]. apply elem_of_app. by left.
  - intros name st Hst. destruct (Hnodes name st Hst) as (? & l & Hl & Hc).
    split; [done|]. exists l. split; [|done]. apply elem_of_app. by left.
Qed.

Lemma on_create_anywhere self line self' :
  on_create self line = Ok self' →
  on_create Parser_init line
  = Ok (mkParser (_current_node self') (_current_node_type self') None)
  ∧ is_Some (_current_node self')
  ∧ result self' = result self.
Proof.
  pose proof (on_create_cases self line) as H1.
  pose proof (on_create_cases Parser_init line) as H2. simpl in *.
  destruct (index (split line) "-n") as [i|e].
  - destruct (split line !! (i + 1)%nat) as [name|].
    + destruct H1 as (ty1 & Hty1 & ->), H2 as (ty2 & Hty2 & ->).
      intros [= <-]. simpl. split; [congruence|]. split; [eauto|done].
    + rewrite H1. done.
  - destruct H1 as [_ ->]. done.
Qed.

Lemma parse_line_from_statements (seen : list string) self r line :
  result self = Some r →
  from_statements seen self →
  from_statements (seen ++ [line])%list (parse_line self line).1.
Proof.
  intros Hr Hinv.
  destruct (parse_line_cases self r line Hr)
    as [[_ Hp]|[(_ & Hc & Hp)|(_ & _ & Hp)]].
  - rewrite Hp. by apply from_statements_more.
  - destruct (on_create self (trim line)) as [self'|e] eqn:Hcreate;
      rewrite Hp; simpl; [|by apply from_statements_more].
    apply on_create_anywhere in Hcreate as (Hinit & _ & Hres).
    apply (from_statements_more seen line) in Hinv as [_ Hnodes].
    split.
    + intros name Hname. exists line.
      split; [apply elem_of_app; right; apply list_elem_of_here|].
      split; [done|]. by rewrite Hinit, Hname.
    + intros name st. unfold nodes_of. rewrite Hres. apply Hnodes.
  - destruct Hp as [(self' & Hs & Hp)|Hp]; rewrite Hp; simpl;
      [|by apply from_statements_more].
    destruct (on_setattr_spec self r (trim line) Hr)
      as (self'' & Hs' & Hcur & Hty & Hnew & Hframe).
    assert (self'' = self') as -> by congruence.
    apply (from_statements_more seen line) in Hinv as [Hseen Hnodes].
    split.
    + intros name. rewrite Hcur, Hty. apply Hseen.
    + intros name st Hst.
      destruct (decide (Some name = _current_node self)) as [Heq|Hne].
      * rewrite Heq, Hnew in Hst. injection Hst as <-. simpl.
        split; [lia|]. unfold entry_before.
        destruct (nodes_of self !! _current_node self) as [old|] eqn:Hold;
          simpl.
        { rewrite <- Heq in Hold. by apply Hnodes in Hold as [_ ?]. }
        by apply Hseen.
      * rewrite Hframe in Hst by done. by apply Hnodes.
Qed.

Lemma parse_lines_from_statements (file_lines : list string) :
  ∀ (seen : list string) self r,
  result self = Some r →
  from_statements seen self →
  from_statements (seen ++ file_lines)%list (parse_lines self file_lines).1.
Proof.
  induction file_lines as [|line rest IH]; intros seen self r Hr Hinv; simpl.
  { by rewrite app_nil_r. }
  pose proof (parse_line_from_statements seen self r line Hr Hinv) as Hstep.
  destruct (parse_line_totals self line r Hr) as (r' & Hr' & _).
  assert (Hmore : ∀ self', from_statements (seen ++ [line])%list self' →
            from_statements (seen ++ line :: rest)%list self').
  { intros self' [Hcur Hnodes].
    assert (Hin : ∀ l, l ∈ (seen ++ [line])%list → l ∈ (seen ++ line :: rest)%list).
    { intros l. rewrite !elem_of_app, list_elem_of_singleton, elem_of_cons.
      tauto. }
    split.
    - intros name Hname. destruct (Hcur name Hname) as (l & Hl & Hc). eauto.
    - intros name st Hst. destruct (Hnodes name st Hst) as (? & l & Hl & Hc).
      eauto. }
  destruct (parse_line self line) as [self' [[]|e]]; simpl in *;
    [|by apply Hmore..].
  rewrite (cons_middle line seen rest), app_assoc.
  by apply (IH _ self' r').
Qed.

(** An entry of [nodes] under a name exists only once a line has been
    attributed to it, and carries the type of a [createNode] statement
    of the file with that name: after [parse] on a parser that
    [__init__] has just built, every such entry counts at least one
    line, and its [nodeType] is the second token of a [createNode]
    statement in the file whose name it is.  A node created without any
    attribute line after it has no entry. *)
Theorem parse_entries_come_from_statements fname size
    (file_lines : list string) (name : string) (st : NodeStats) :
  nodes_of (parse Parser_init fname size file_lines).1 !! Some name = Some st →
  (1 ≤ lines st)%nat
  ∧ ∃ line node_type,
      line ∈ file_lines
      ∧ startswith (trim line) "createNode" = true
      ∧ created_name line = Some name
      ∧ split (trim line) !! 1%nat = Some node_type
      ∧ nodeType st = Some node_type.
Proof.
  intros Hst. unfold parse in Hst.
  match type of Hst with context [parse_lines ?s _] =>
    pose proof (parse_lines_from_statements file_lines [] s _ eq_refl) as Hinv
  end.
  destruct Hinv as [_ Hnodes].
  { split; [done|]. intros n s. unfold nodes_of. simpl.
    by rewrite lookup_empty. }
  destruct (Hnodes name st Hst) as (Hlines & line & Hin & Hc & Hcreate).
  split; [done|].
  pose proof (on_create_cases Parser_init (trim line)) as Hcases.
  simpl in Hcases. rewrite Hcreate in Hcases.
  destruct (index (split (trim line)) "-n") as [i|e]; [|by destruct Hcases].
  destruct (split (trim line) !! (i + 1)%nat) as [token|]; [|done].
  destruct Hcases as (ty & Hty & [= Hname Htype]).
  exists line, ty. split; [done|]. split; [done|].
  split; [|done]. unfold created_name. by rewrite Hcreate.
Qed.

Lemma parse_entries_come_from_statements_witness :
  let file_lines :=
    [create_line "transform" "empty"; create_line "mesh" "pCubeShape1";
     setattr_line ".tx" "5"] in
  nodes_of (parse Parser_init "scene.ma" 120 file_lines).1 !! Some "empty" = None
  ∧ ∃ st, nodes_of (parse Parser_init "scene.ma" 120 file_lines).1
            !! Some "pCubeShape1" = Some st
    ∧ (1 ≤ lines st)%nat
    ∧ nodeType st = Some "mesh".
Proof.
  intros file_lines. split; [vm_compute; reflexivity|].
  destruct (nodes_of (parse Parser_init "scene.ma" 120 file_lines).1
              !! Some "pCubeShape1") as [st|] eqn:Hst;
    [|vm_compute in Hst; discriminate Hst].
  exists st. split; [reflexivity|].
  destruct (parse_entries_come_from_statements "scene.ma" 120 file_lines
              "pCubeShape1" st Hst) as (Hlines & _).
  split; [exact Hlines|].
  vm_compute in Hst. injection Hst as <-. reflexivity.
Defined.

(** ** A [createNode] statement as Maya writes it *)

(** No character of [s] is a space for [str.split]. *)
Fixpoint no_space (s : string) : bool :=
  match s with
  | EmptyString => true
  | String c s' => negb (isspace c) && no_space s'
  end.

(** No character of [s] is a double quote. *)
Fixpoint no_quote (s : string) : bool :=
  match s with
  | EmptyString => true
  | String c s' => negb (Ascii.eqb c DQ) && no_quote s'
  end.

Lemma append_nil_l (t : string) : EmptyString ++ t = t.
Proof. reflexivity. Qed.

Lemma append_cons (c : ascii) (s t : string) :
  String c s ++ t = String c (s ++ t).
Proof. reflexivity. Qed.

Lemma append_nil_r (s : string) : s ++ EmptyString = s.
Proof. induction s as [|c s IH]; [done|]. by rewrite append_cons, IH. Qed.

Lemma append_assoc (s t u : string) : (s ++ t) ++ u = s ++ (t ++ u).
Proof.
  induction s as [|c s IH]; [done|]. by rewrite !append_cons, IH.
Qed.

Lemma rstrip_cons (p : ascii → bool) (c : ascii) (s : string) :
  rstrip p (String c s)
  = match rstrip p s with
    | EmptyString => if p c then EmptyString else String c EmptyString
    | t => String c t
    end.
Proof. reflexivity. Qed.

(** A tail of characters to strip goes away. *)
Lemma rstrip_app_stripped (p : ascii → bool) (s t : string) :
  rstrip p t = EmptyString → rstrip p (s ++ t) = rstrip p s.
Proof.
  intros Ht. induction s as [|c s IH]; [done|].
  by rewrite append_cons, !rstrip_cons, IH.
Qed.

(** A string that ends with a character to keep is kept. *)
Lemma rstrip_app_kept (p : ascii → bool) (s : string) (c : ascii) :
  p c = false → rstrip p (s ++ String c EmptyString) = s ++ String c EmptyString.
Proof.
  intros Hc. induction s as [|a s IH].
  - rewrite append_nil_l, rstrip_cons. simpl. by rewrite Hc.
  - rewrite append_cons, rstrip_cons, IH.
    destruct s; reflexivity.
Qed.

Lemma split_from_cons (word : string) (c : ascii) (s : string) :
  split_from word (String c s)
  = if isspace c
    then match word with
         | EmptyString => split_from EmptyString s
         | _ => word :: split_from EmptyString s
         end
    else split_from (word ++ String c EmptyString) s.
Proof. reflexivity. Qed.

(** [split] runs through a word without cutting it. *)
Lemma split_from_word (w : string) : ∀ (word rest : string),
  no_space w = true →
  split_from word (w ++ rest) = split_from (word ++ w) rest.
Proof.
  induction w as [|c w IH]; intros word rest Hw.
  - by rewrite append_nil_l, append_nil_r.
  - simpl in Hw. apply andb_true_iff in Hw as [Hc Hw].
    apply negb_true_iff in Hc.
    rewrite append_cons, split_from_cons, Hc, IH by done.
    by rewrite append_assoc.
Qed.

Lemma split_from_space (word : string) (c : ascii) (s : string) :
  isspace c = true → word ≠ EmptyString →
  split_from word (String c s) = word :: split_from EmptyString s.
Proof.
  intros Hc Hword. rewrite split_from_cons, Hc. by destruct word.
Qed.

Lemma remove_quotes_word (name : string) :
  no_quote name = true →
  remove_quotes (name ++ String DQ EmptyString) = name.
Proof.
  induction name as [|c name IH]; intros Hname.
  - reflexivity.
  - simpl in Hname. apply andb_true_iff in Hname as [Hc Hname].
    apply negb_true_iff in Hc. rewrite append_cons. simpl.
    unfold DQ in Hc. rewrite Hc. by rewrite IH.
Qed.

(** What the loop makes of the line before it classifies it. *)
Lemma trim_create_line (node_type name : string) :
  trim (create_line node_type name)
  = "createNode " ++ node_type ++ " -n " ++ quoted name.
Proof.
  unfold trim, strip, create_line, eol.
  set (body := "createNode " ++ node_type ++ " -n " ++ quoted name).
  assert (Hline : "createNode " ++ node_type ++ " -n " ++ quoted name ++ ";"
                  = body ++ ";").
  { unfold body. by rewrite !append_assoc. }
  rewrite Hline.
  assert (Hbody : ∃ front, body = front ++ String DQ EmptyString).
  { exists ("createNode " ++ node_type ++ " -n " ++ String DQ name).
    unfold body, quoted. rewrite !append_assoc. by rewrite append_cons. }
  destruct Hbody as [front Hfront].
  assert (Hl : lstrip isspace ((body ++ ";") ++ String LF EmptyString)
               = (body ++ ";") ++ String LF EmptyString) by reflexivity.
  rewrite Hl.
  rewrite (rstrip_app_stripped isspace) by reflexivity.
  rewrite (rstrip_app_kept isspace) by reflexivity.
  rewrite (rstrip_app_stripped _ body ";") by reflexivity.
  rewrite Hfront. by apply rstrip_app_kept.
Qed.

Lemma split_create_line (node_type name : string) :
  node_type ≠ EmptyString →
  no_space node_type = true → no_space name = true →
  split ("createNode " ++ node_type ++ " -n " ++ quoted name)
  = ["createNode"; node_type; "-n"; quoted name].
Proof.
  intros Hne Hty Hname. unfold split.
  change ("createNode " ++ node_type ++ " -n " ++ quoted name)
    with ("createNode" ++ String " " (node_type ++ " -n " ++ quoted name)).
  rewrite split_from_word by reflexivity.
  rewrite append_nil_l, split_from_space by done. f_equal.
  rewrite split_from_word, append_nil_l by done.
  change (" -n " ++ quoted name) with (String " " ("-n" ++ String " " (quoted name))).
  rewrite split_from_space by done. f_equal.
  rewrite split_from_word by reflexivity.
  rewrite append_nil_l, split_from_space by done. f_equal.
  assert (Hq : no_space (quoted name) = true).
  { unfold quoted. simpl.
    assert (H : ∀ s, no_space s = true →
              no_space (s ++ String DQ EmptyString) = true).
    { induction s as [|c s IH]; [done|]. rewrite append_cons. simpl.
      intros [-> Hs]%andb_true_iff. by apply IH. }
    by apply H. }
  pose proof (split_from_word (quoted name) EmptyString EmptyString Hq) as H.
  rewrite append_nil_r, append_nil_l in H. rewrite H. reflexivity.
Qed.

Lemma parse_line_create_line self (node_type name : string) :
  node_type ≠ EmptyString → node_type ≠ "-n" →
  no_space node_type = true → no_space name = true → no_quote name = true →
  parse_line self (create_line node_type name)
  = (mkParser (Some name) (Some node_type) (result self), Ok Next).
Proof.
  intros Hne Hflag Hty Hspace Hquote.
  unfold parse_line.
  assert (Hsel : startswith (create_line node_type name) "select" = false)
    by reflexivity.
  assert (Hcon : startswith (create_line node_type name) "connectAttr" = false)
    by reflexivity.
  rewrite Hsel, Hcon.
  fold (strip (create_line node_type name)).
  change (rstrip (char_in (" ;" ++ String LF EmptyString))
            (strip (create_line node_type name)))
    with (trim (create_line node_type name)).
  rewrite trim_create_line.
  assert (Hcreate : startswith ("createNode " ++ node_type ++ " -n " ++ quoted name)
                      "createNode" = true) by reflexivity.
  rewrite Hcreate.
  unfold on_create. rewrite split_create_line by done.
  assert (Hindex : index ["createNode"; node_type; "-n"; quoted name] "-n"
                   = Ok 2%nat).
  { simpl. apply String.eqb_neq in Hflag. by rewrite Hflag. }
  rewrite Hindex. simpl. unfold quoted. simpl.
  by rewrite remove_quotes_word.
Qed.

(** The statement [createNode <type> -n "<name>";] as Maya writes it,
    newline included, makes [name] the current node and [type] its
    type, whatever the parser held, when type and name are single words
    (no white space; the type is not empty and is not [-n]; the name
    holds no double quote). *)
Theorem parse_line_reads_create_statement self (node_type name : string) :
  node_type ≠ EmptyString → node_type ≠ "-n" →
  no_space node_type = true → no_space name = true → no_quote name = true →
  parse_line self (create_line node_type name)
  = (mkParser (Some name) (Some node_type) (result self), Ok Next).
Proof. apply parse_line_create_line. Qed.

Lemma parse_line_reads_create_statement_witness :
  parse_line Parser_init (create_line "mesh" "pCubeShape1")
  = (mkParser (Some "pCubeShape1") (Some "mesh") None, Ok Next).
Proof.
  apply (parse_line_reads_create_statement Parser_init "mesh" "pCubeShape1");
    [discriminate|discriminate|reflexivity|reflexivity|reflexivity].
Defined.

(** ** The lines of one node *)

(** A line of the body of a node: it does not end the loop and is not a
    [createNode] statement. *)
Definition body_line (line : string) : Prop :=
  is_terminator line = false ∧ startswith (trim line) "createNode" = false.

(** The entry [st] after the lines [body] have been attributed to it. *)
Definition attribute_block (st : NodeStats) (body : list string) : NodeStats :=
  mkNodeStats (nodeType st)
    (lines st + length body)
    (characters st + list_sum (map (λ line, String.length (trim line)) body)).

Lemma parse_line_attributed self r line :
  result self = Some r →
  body_line line →
  _current_node self ≠ None →
  ∃ self', on_setattr self (trim line) = Ok self'
    ∧ parse_line self line = (self', Ok Next).
Proof.
  intros Hr [Hterm Hcreate] Hcur.
  destruct (on_setattr_ok self (trim line) r Hr) as [self' Hs].
  exists self'. split; [done|].
  unfold is_terminator in Hterm. apply orb_false_iff in Hterm as [Hsel Hcon].
  unfold parse_line. rewrite Hsel, Hcon.
  fold (strip line).
  change (rstrip (char_in (" ;" ++ String LF EmptyString)) (strip line))
    with (trim line).
  rewrite Hcreate, Hs.
  destruct (startswith (trim line) "setAttr"); [done|].
  by rewrite bool_decide_true.
Qed.

Lemma parse_lines_block (body : list string) : ∀ self r,
  result self = Some r →
  _current_node self ≠ None →
  Forall body_line body →
  body ≠ [] →
  ∃ self', parse_lines self body = (self', Ok tt)
    ∧ nodes_of self' !! _current_node self
      = Some (attribute_block (entry_before self) body)
    ∧ ∀ k, k ≠ _current_node self → nodes_of self' !! k = nodes_of self !! k.
Proof.
  induction body as [|line rest IH]; intros self r Hr Hcur Hbody Hne; [done|].
  apply Forall_cons in Hbody as [Hline Hrest].
  destruct (parse_line_attributed self r line Hr Hline Hcur)
    as (self1 & Hs & Hp).
  destruct (on_setattr_spec self r (trim line) Hr)
    as (self1' & Hs' & Hcur1 & _ & Hnew & Hframe).
  assert (self1' = self1) as -> by congruence.
  destruct (on_setattr_totals self (trim line) self1 r Hr Hs) as (r1 & Hr1 & _).
  simpl. rewrite Hp.
  destruct rest as [|line2 rest].
  { exists self1. split; [done|]. split; [|done].
    rewrite Hnew. unfold attribute_block. simpl. do 2 f_equal; lia. }
  destruct (IH self1 r1 Hr1) as (self' & Hrun & Hentry & Hothers);
    [congruence|done|done|].
  exists self'. split; [done|]. rewrite Hcur1 in *. split.
  - rewrite Hentry. unfold entry_before at 1. rewrite Hcur1, Hnew.
    unfold attribute_block. simpl. f_equal. f_equal; lia.
  - intros k Hk. rewrite Hothers by done. by apply Hframe.
Qed.

(** A file that holds one [createNode] statement as Maya writes it,
    followed by lines that neither end the loop nor create a node, gives
    exactly one entry: under the name of the node, with its type, the
    number of lines that follow the statement and the sum of their
    trimmed lengths.  The [createNode] line itself is not counted. *)
Theorem parse_single_node_file fname size (node_type name : string)
    (body : list string) :
  node_type ≠ EmptyString → node_type ≠ "-n" →
  no_space node_type = true → no_space name = true → no_quote name = true →
  Forall body_line body → body ≠ [] →
  (parse Parser_init fname size (create_line node_type name :: body)).2 = Ok tt
  ∧ nodes_of (parse Parser_init fname size (create_line node_type name :: body)).1
    = {[ Some name :=
           mkNodeStats (Some node_type) (length body)
             (list_sum (map (λ line, String.length (trim line)) body)) ]}.
Proof.
  intros Hne Hflag Hty Hspace Hquote Hbody Hbody_ne.
  unfold parse. cbn [parse_lines].
  rewrite parse_line_create_line by done. cbn [result].
  match goal with |- context [parse_lines ?s body] =>
    destruct (parse_lines_block body s _ eq_refl) as (self' & Hrun & Hentry & Hothers);
      [done|done|done|]
  end.
  rewrite Hrun. split; [done|]. cbn [fst].
  apply map_eq. intros k. cbn [_current_node] in *.
  destruct (decide (k = Some name)) as [->|Hk].
  - rewrite lookup_singleton_eq, Hentry. reflexivity.
  - rewrite lookup_singleton_ne by done. rewrite Hothers by done.
    unfold nodes_of. simpl. apply lookup_empty.
Qed.

Lemma parse_single_node_file_witness :
  nodes_of (parse Parser_init "scene.ma" 120
              [create_line "mesh" "pCubeShape1";
               setattr_line ".tx" "5"; eol "  -s 4 1 2 3 4;"]).1
  = {[ Some "pCubeShape1" := mkNodeStats (Some "mesh") 2 (15 + (12 + 0)) ]}.
Proof.
  apply (parse_single_node_file "scene.ma" 120 "mesh" "pCubeShape1"
           [setattr_line ".tx" "5"; eol "  -s 4 1 2 3 4;"]).
  - discriminate.
  - discriminate.
  - reflexivity.
  - reflexivity.
  - reflexivity.
  - repeat (apply Forall_cons; split; [split; reflexivity|]). constructor.
  - discriminate.
Defined.

(** * The layout in binary64

    The functions of the layout once more, with the arithmetic of the
    code: every number is a binary64 value and every [+], [-], [*], [/]
    rounds to nearest, ties to even.  A division by a zero of either
    sign raises [ZeroDivisionError]; no other operation raises, an
    overflow gives an infinity.  Comparisons are those of IEEE 754, so
    every comparison with a NaN is false.  [sum] adds from the left,
    starting from [0], which is what the builtin does up to Python
    3.11.  A Python [int] below [2^53] is the binary64 value of the
    same magnitude. *)

Module Binary64.

Local Open Scope float_scope.

(** [a / b]. *)
Definition div (a b : float) : res float :=
  if PrimFloat.eqb b 0 then Raise ZeroDivisionError else Ok (a / b).

(** The builtin [sum]. *)
Definition sum (sizes : list float) : float := fold_left PrimFloat.add sizes 0.

(** The builtin [max] of two arguments keeps the first one unless the
    second is greater. *)
Definition max2 (a b : float) : float := if PrimFloat.ltb a b then b else a.

(** The builtin [max] of a list. *)
Definition max_list (l : list float) : res float :=
  match l with
  | [] => Raise ValueError
  | a :: l' => Ok (fold_left max2 l' a)
  end.

Record Rect : Type := mkRect {
  rect_x : float;
  rect_y : float;
  rect_dx : float;
  rect_dy : float
}.

Definition pad_rectangle (rect : Rect) : Rect :=
  let rect :=
    if PrimFloat.ltb 2 (rect_dx rect)
    then mkRect (rect_x rect + 1) (rect_y rect) (rect_dx rect - 2) (rect_dy rect)
    else rect in
  if PrimFloat.ltb 2 (rect_dy rect)
  then mkRect (rect_x rect) (rect_y rect + 1) (rect_dx rect) (rect_dy rect - 2)
  else rect.

Fixpoint layoutrow_loop (sizes : list float) (x y width : float)
  : res (list Rect) :=
  match sizes with
  | [] => Ok []
  | size :: sizes' =>
      h ← div size width;
      rects ← layoutrow_loop sizes' x (y + h) width;
      Ok (mkRect x y width h :: rects)
  end.

Definition layoutrow (sizes : list float) (x y dx dy : float)
  : res (list Rect) :=
  let covered_area := sum sizes in
  width ← div covered_area dy;
  layoutrow_loop sizes x y width.

Fixpoint layoutcol_loop (sizes : list float) (x y height : float)
  : res (list Rect) :=
  match sizes with
  | [] => Ok []
  | size :: sizes' =>
      w ← div size height;
      rects ← layoutcol_loop sizes' (x + w) y height;
      Ok (mkRect x y w height :: rects)
  end.

Definition layoutcol (sizes : list float) (x y dx dy : float)
  : res (list Rect) :=
  let covered_area := sum sizes in
  height ← div covered_area dx;
  layoutcol_loop sizes x y height.

(** [dx >= dy] is [dy <= dx]. *)
Definition layout (sizes : list float) (x y dx dy : float) : res (list Rect) :=
  if PrimFloat.leb dy dx
  then layoutrow sizes x y dx dy
  else layoutcol sizes x y dx dy.

Definition leftoverrow (sizes : list float) (x y dx dy : float)
  : res (float * float * float * float) :=
  let covered_area := sum sizes in
  width ← div covered_area dy;
  Ok (x + width, y, dx - width, dy).

Definition leftovercol (sizes : list float) (x y dx dy : float)
  : res (float * float * float * float) :=
  let covered_area := sum sizes in
  height ← div covered_area dx;
  Ok (x, y + height, dx, dy - height).

Definition leftover (sizes : list float) (x y dx dy : float)
  : res (float * float * float * float) :=
  if PrimFloat.leb dy dx
  then leftoverrow sizes x y dx dy
  else leftovercol sizes x y dx dy.

Fixpoint ratios (rects : list Rect) : res (list float) :=
  match rects with
  | [] => Ok []
  | rect :: rects' =>
      a ← div (rect_dx rect) (rect_dy rect);
      b ← div (rect_dy rect) (rect_dx rect);
      rs ← ratios rects';
      Ok (max2 a b :: rs)
  end.

Definition worst_ratio (sizes : list float) (x y dx dy : float) : res float :=
  rects ← layout sizes x y dx dy;
  rs ← ratios rects;
  max_list rs.

(** The [while] loop of [squarify]; [w1 >= w2] is [w2 <= w1]. *)
Equations? split_loop (sizes : list float) (x y dx dy : float) (i : nat)
  : res nat by wf (length sizes - i)%nat lt :=
  split_loop sizes x y dx dy i with inspect (i <? length sizes)%nat := {
    | exist _ false _ := Ok i
    | exist _ true Hlt with worst_ratio (take i sizes) x y dx dy := {
      | Raise e := Raise e
      | Ok w1 with worst_ratio (take (i + 1) sizes) x y dx dy := {
        | Raise e := Raise e
        | Ok w2 with PrimFloat.leb w2 w1 := {
          | true := split_loop sizes x y dx dy (i + 1)
          | false := Ok i } } } }.
Proof. apply Nat.ltb_lt in Hlt. lia. Qed.

Equations? squarify (sizes : list float) (x y dx dy : float)
  : res (list Rect) by wf (length sizes) lt :=
  squarify [] x y dx dy := Ok [];
  squarify [size] x y dx dy := layout [size] x y dx dy;
  squarify (s1 :: s2 :: sizes) x y dx dy
    with inspect (split_loop (s1 :: s2 :: sizes) x y dx dy 1) := {
    | exist _ (Raise e) _ := Raise e
    | exist _ (Ok i) Hi
        with leftover (take i (s1 :: s2 :: sizes)) x y dx dy := {
      | Raise e := Raise e
      | Ok (leftover_x, leftover_y, leftover_dx, leftover_dy)
          with layout (take i (s1 :: s2 :: sizes)) x y dx dy := {
        | Raise e := Raise e
        | Ok current_rects
            with squarify (drop i (s1 :: s2 :: sizes))
                   leftover_x leftover_y leftover_dx leftover_dy := {
          | Raise e := Raise e
          | Ok remaining_rects := Ok (current_rects ++ remaining_rects)%list } } } }.
Proof.
  assert (Hge : ∀ l j k, split_loop l x y dx dy j = Ok k → (j ≤ k)%nat).
  { clear. intros l j. funelim (split_loop l x y dx dy j);
      intros k Hk; try discriminate; try (injection Hk as ->; lia).
    match goal with IH : ∀ k, _ → (_ ≤ k)%nat |- _ => apply IH in Hk end. lia. }
  apply Hge in Hi. rewrite length_drop. simpl. lia.
Qed.

Definition padded_squarify (sizes : list float) (x y dx dy : float)
  : res (list Rect) :=
  rects ← squarify sizes x y dx dy;
  Ok (map pad_rectangle rects).

Definition floor_loop (sizes : list float) (minsize : float) : list float :=
  foldl (fun (sizes : list float) (index : nat) =>
           match sizes !! index with
           | Some size => <[index := max2 size minsize]> sizes
           | None => sizes
           end)
        sizes (seq 0 (length sizes)).

Fixpoint scale (sizes : list float) (total_area total_size : float)
  : res (list float) :=
  match sizes with
  | [] => Ok []
  | size :: sizes' =>
      v ← div (size * total_area) total_size;
      vs ← scale sizes' total_area total_size;
      Ok (v :: vs)
  end.

(** [0.01], the default of [minimum_size]. *)
Definition default_minimum_size : float := 0x1.47ae147ae147bp-7.

Definition normalize_sizes (sizes : list float) (dx dy : float)
    (minimum_size : float) : list float * res (list float) :=
  match max_list sizes with
  | Raise e => (sizes, Raise e)
  | Ok m =>
      let minsize := m * minimum_size in
      let sizes := floor_loop sizes minsize in
      let total_size := sum sizes in
      let total_area := dx * dy in
      (sizes, scale sizes total_area total_size)
  end.

(** The rational number that a finite binary64 value is. *)
Definition exact (a : float) : option Q :=
  match Prim2SF a with
  | S754_zero _ => Some 0%Q
  | S754_finite s m e =>
      Some ((if s then -1 else 1) * inject_Z (Z.pos m) * Qpower 2 e)%Q
  | _ => None
  end.

End Binary64.


Section Binary64_layout.

Import Binary64.
Local Open Scope float_scope.

(** ** Unfolding the two recursions *)

Lemma b64_split_loop_eq (sizes : list float) (x y dx dy : float) (i : nat) :
  split_loop sizes x y dx dy i =
  if (i <? length sizes)%nat then
    w1 ← worst_ratio (take i sizes) x y dx dy;
    w2 ← worst_ratio (take (i + 1) sizes) x y dx dy;
    if PrimFloat.leb w2 w1 then split_loop sizes x y dx dy (i + 1) else Ok i
  else Ok i.
Proof.
  funelim (split_loop sizes x y dx dy i);
    match goal with H : (_ <? _)%nat = _ |- _ => rewrite H end;
    repeat match goal with H : worst_ratio _ _ _ _ _ = _ |- _ => rewrite H end;
    simpl; try done.
  all: match goal with H : PrimFloat.leb _ _ = _ |- _ => rewrite H end; done.
Qed.

Lemma b64_squarify_eq (sizes : list float) (x y dx dy : float) :
  squarify sizes x y dx dy =
  match sizes with
  | [] => Ok []
  | [size] => layout [size] x y dx dy
  | _ =>
      i ← split_loop sizes x y dx dy 1;
      '(leftover_x, leftover_y, leftover_dx, leftover_dy)
        ← leftover (take i sizes) x y dx dy;
      current_rects ← layout (take i sizes) x y dx dy;
      remaining_rects ← squarify (drop i sizes)
                          leftover_x leftover_y leftover_dx leftover_dy;
      Ok (current_rects ++ remaining_rects)%list
  end.
Proof.
  funelim (squarify sizes x y dx dy); try done.
  all: repeat match goal with
       | H : split_loop _ _ _ _ _ _ = _ |- _ => rewrite H; simpl
       | H : leftover _ _ _ _ _ = _ |- _ => rewrite H; simpl
       | H : layout _ _ _ _ _ = _ |- _ => rewrite H; simpl
       | H : squarify _ _ _ _ _ = Ok _ |- _ => rewrite H; simpl
       | H : squarify _ _ _ _ _ = Raise _ |- _ => rewrite H; simpl
       end; done.
Qed.

Lemma b64_split_loop_bounds (sizes : list float) (x y dx dy : float) (i j : nat) :
  split_loop sizes x y dx dy i = Ok j → (i ≤ j)%nat.
Proof.
  revert j. funelim (split_loop sizes x y dx dy i);
    intros j Hj; try discriminate; try (injection Hj as ->; lia).
  match goal with
  | IH : ∀ j, _ → (_ ≤ j)%nat |- _ => apply IH in Hj
  end.
  lia.
Qed.

(** The induction that follows the recursion of [squarify]: a property
    of the outcome that holds for no weight and for one weight, and
    that a strip hands on to the rest, holds for every list. *)
Lemma b64_squarify_ind
    (P : list float → float → float → float → float → list Rect → Prop) :
  (∀ x y dx dy, P [] x y dx dy []) →
  (∀ size x y dx dy rects,
     layout [size] x y dx dy = Ok rects → P [size] x y dx dy rects) →
  (∀ sizes x y dx dy i lx ly ldx ldy current remaining,
     (2 ≤ length sizes)%nat → (1 ≤ i)%nat →
     leftover (take i sizes) x y dx dy = Ok (lx, ly, ldx, ldy) →
     layout (take i sizes) x y dx dy = Ok current →
     squarify (drop i sizes) lx ly ldx ldy = Ok remaining →
     P (drop i sizes) lx ly ldx ldy remaining →
     P sizes x y dx dy (current ++ remaining)%list) →
  ∀ sizes x y dx dy rects,
    squarify sizes x y dx dy = Ok rects → P sizes x y dx dy rects.
Proof.
  intros Hnil Hone Hstrip.
  assert (H : ∀ n sizes x y dx dy rects, (length sizes ≤ n)%nat →
            squarify sizes x y dx dy = Ok rects → P sizes x y dx dy rects).
  { induction n as [|n IH]; intros l x y dx dy rects Hn Hrects.
    { destruct l; [|simpl in Hn; lia].
      rewrite b64_squarify_eq in Hrects. injection Hrects as <-. apply Hnil. }
    rewrite b64_squarify_eq in Hrects.
    destruct l as [|s1 [|s2 l]].
    { injection Hrects as <-. apply Hnil. }
    { by apply Hone. }
    set (sizes' := s1 :: s2 :: l) in *.
    destruct (split_loop sizes' x y dx dy 1) as [i|] eqn:Hsplit;
      simpl in Hrects; [|done].
    apply b64_split_loop_bounds in Hsplit.
    destruct (leftover (take i sizes') x y dx dy)
      as [[[[lx ly] ldx] ldy]|] eqn:Hleft; simpl in Hrects; [|done].
    destruct (layout (take i sizes') x y dx dy) as [current|] eqn:Hlayout;
      simpl in Hrects; [|done].
    destruct (squarify (drop i sizes') lx ly ldx ldy) as [remaining|] eqn:Hrec;
      simpl in Hrects; [|done].
    injection Hrects as <-.
    eapply Hstrip; try done.
    - simpl. lia.
    - apply IH; [|done]. rewrite length_drop. simpl in *. lia. }
  intros l x y dx dy rects. by apply (H (length l)).
Qed.

(** ** One strip *)

(** [rects] is a strip for [sizes] that starts at [(x, y)]: the first
    rectangle is there, and every other one begins where the one before
    it ends, below it in a row strip of width [thickness], to its right
    in a column strip of height [thickness].  The other side of each
    rectangle is its weight divided by the thickness. *)
Fixpoint row_strip (sizes : list float) (x y thickness : float)
    (rects : list Rect) : Prop :=
  match sizes, rects with
  | [], [] => True
  | size :: sizes', r :: rects' =>
      r = mkRect x y thickness (size / thickness)
      ∧ row_strip sizes' x (y + rect_dy r) thickness rects'
  | _, _ => False
  end.

Fixpoint col_strip (sizes : list float) (x y thickness : float)
    (rects : list Rect) : Prop :=
  match sizes, rects with
  | [], [] => True
  | size :: sizes', r :: rects' =>
      r = mkRect x y (size / thickness) thickness
      ∧ col_strip sizes' (x + rect_dx r) y thickness rects'
  | _, _ => False
  end.

Lemma b64_div_inv (a b q : float) : div a b = Ok q → q = a / b.
Proof. unfold div. destruct (PrimFloat.eqb b 0); [done|]. by intros [= <-]. Qed.

Lemma b64_layoutrow_loop_strip (sizes : list float) (width : float) :
  ∀ x y rects, layoutrow_loop sizes x y width = Ok rects →
    row_strip sizes x y width rects.
Proof.
  induction sizes as [|size sizes IH]; intros x y rects; simpl.
  { by intros [= <-]. }
  destruct (div size width) as [h|] eqn:Hh; simpl; [|done].
  apply b64_div_inv in Hh as ->.
  destruct (layoutrow_loop sizes x (y + size / width) width) as [rects'|] eqn:Hr;
    simpl; [|done].
  intros [= <-]. split; [done|]. simpl. by apply IH.
Qed.

Lemma b64_layoutcol_loop_strip (sizes : list float) (height : float) :
  ∀ x y rects, layoutcol_loop sizes x y height = Ok rects →
    col_strip sizes x y height rects.
Proof.
  induction sizes as [|size sizes IH]; intros x y rects; simpl.
  { by intros [= <-]. }
  destruct (div size height) as [w|] eqn:Hw; simpl; [|done].
  apply b64_div_inv in Hw as ->.
  destruct (layoutcol_loop sizes (x + size / height) y height) as [rects'|] eqn:Hr;
    simpl; [|done].
  intros [= <-]. split; [done|]. simpl. by apply IH.
Qed.

(** What [layout] and [leftover] make of the same strip. *)
Lemma b64_layout_strip (sizes : list float) (x y dx dy : float)
    (rects : list Rect) :
  layout sizes x y dx dy = Ok rects →
  (PrimFloat.leb dy dx = true
   ∧ row_strip sizes x y (sum sizes / dy) rects
   ∧ leftover sizes x y dx dy
     = Ok (x + sum sizes / dy, y, dx - sum sizes / dy, dy))
  ∨ (PrimFloat.leb dy dx = false
     ∧ col_strip sizes x y (sum sizes / dx) rects
     ∧ leftover sizes x y dx dy
       = Ok (x, y + sum sizes / dx, dx, dy - sum sizes / dx)).
Proof.
  unfold layout, leftover, layoutrow, layoutcol, leftoverrow, leftovercol.
  destruct (PrimFloat.leb dy dx); [left|right]; (split; [done|]).
  - destruct (div (sum sizes) dy) as [width|] eqn:Hw; simpl in *; [|done].
    apply b64_div_inv in Hw as ->. split; [|done].
    by apply b64_layoutrow_loop_strip.
  - destruct (div (sum sizes) dx) as [height|] eqn:Hh; simpl in *; [|done].
    apply b64_div_inv in Hh as ->. split; [|done].
    by apply b64_layoutcol_loop_strip.
Qed.

(** ** One rectangle per weight *)

(** [r] is the rectangle of the weight [size]: one of its sides is the
    weight divided (in binary64) by the other side. *)
Definition rectangle_of (size : float) (r : Rect) : Prop :=
  rect_dy r = size / rect_dx r ∨ rect_dx r = size / rect_dy r.

Lemma b64_row_strip_rectangles (sizes : list float) (thickness : float) :
  ∀ x y rects, row_strip sizes x y thickness rects →
    Forall2 rectangle_of sizes rects.
Proof.
  induction sizes as [|size sizes IH]; intros x y [|r rects]; simpl; try done.
  intros [-> Hrest]. constructor; [by left|]. by eapply IH.
Qed.

Lemma b64_col_strip_rectangles (sizes : list float) (thickness : float) :
  ∀ x y rects, col_strip sizes x y thickness rects →
    Forall2 rectangle_of sizes rects.
Proof.
  induction sizes as [|size sizes IH]; intros x y [|r rects]; simpl; try done.
  intros [-> Hrest]. constructor; [by right|]. by eapply IH.
Qed.

Lemma b64_layout_rectangles (sizes : list float) (x y dx dy : float)
    (rects : list Rect) :
  layout sizes x y dx dy = Ok rects → Forall2 rectangle_of sizes rects.
Proof.
  intros [(_ & H & _)|(_ & H & _)]%b64_layout_strip.
  - by eapply b64_row_strip_rectangles.
  - by eapply b64_col_strip_rectangles.
Qed.

Lemma b64_squarify_rectangles (sizes : list float) (x y dx dy : float)
    (rects : list Rect) :
  squarify sizes x y dx dy = Ok rects → Forall2 rectangle_of sizes rects.
Proof.
  revert sizes x y dx dy rects.
  apply (b64_squarify_ind (λ sizes _ _ _ _ rects, Forall2 rectangle_of sizes rects)).
  - constructor.
  - intros size x y dx dy rects. apply b64_layout_rectangles.
  - intros sizes x y dx dy i lx ly ldx ldy current remaining _ _ _ Hcur _ Hrem.
    rewrite <- (take_drop i sizes). apply Forall2_app; [|done].
    by eapply b64_layout_rectangles.
Qed.

(** ** Rectangles laid edge to edge *)












(** C8, as the code has it.  Whenever [squarify] returns, it returns one
    rectangle per weight, in the order of the weights, and the
    rectangle at index [i] is the rectangle of the weight at index [i]:
    one of its sides is that weight divided by the other side.  For no
    weight it returns no rectangle. *)
Theorem squarify_order_preserving (sizes : list float) (x y dx dy : float)
    (rects : list Rect) :
  squarify sizes x y dx dy = Ok rects →
  length rects = length sizes
  ∧ (∀ (i : nat) size r, sizes !! i = Some size → rects !! i = Some r →
       rect_dy r = size / rect_dx r ∨ rect_dx r = size / rect_dy r)
  ∧ squarify [] x y dx dy = Ok [].
Proof.
  intros Hrects. apply b64_squarify_rectangles in Hrects.
  split; [symmetry; by eapply Forall2_length|].
  split; [|by rewrite b64_squarify_eq].
  intros i size r Hsize Hr.
  by eapply (Forall2_lookup_lr _ _ _ i size r) in Hrects.
Qed.

Lemma squarify_order_preserving_witness :
  ∃ rects r, squarify [6; 6; 4; 3; 2; 2; 1] 0 0 6 4 = Ok rects
    ∧ length rects = 7%nat
    ∧ rects !! 2%nat = Some r
    ∧ (rect_dy r = 4 / rect_dx r ∨ rect_dx r = 4 / rect_dy r).
Proof.
  eexists _, _.
  split; [vm_compute; reflexivity|].
  destruct (squarify_order_preserving [6; 6; 4; 3; 2; 2; 1] 0 0 6 4 _
              ltac:(vm_compute; reflexivity)) as (Hlen & Hcorr & _).
  split; [exact Hlen|]. split; [reflexivity|].
  eapply (Hcorr 2%nat); reflexivity.
Defined.

(** C8, as the spec states it, fails, also on weights scaled as the
    spec requires.  The weights [1 + 2^-51] and [2^-104] are positive
    and sum to the area of the square of side [1 + 2^-52], in binary64
    and exactly; [squarify] closes the first strip with a rectangle
    left over of width [0.0] and raises [ZeroDivisionError], so it
    returns no rectangle sequence at all. *)
Lemma squarify_raises_on_scaled_weights_counterexample :
  let w1 := 0x1.0000000000002p+0 in
  let w2 := 0x1p-104 in
  let side := 0x1.0000000000001p+0 in
  PrimFloat.ltb 0 w1 = true ∧ PrimFloat.ltb 0 w2 = true
  ∧ sum [w1; w2] = side * side
  ∧ (∃ q1 q2 qs : Q,
       exact w1 = Some q1 ∧ exact w2 = Some q2 ∧ exact side = Some qs
       ∧ (q1 + q2 == qs * qs)%Q)
  ∧ leftover [w1] 0 0 side side = Ok (side, 0, 0, side)
  ∧ squarify [w1; w2] 0 0 side side = Raise ZeroDivisionError
  ∧ ¬ ∃ rects, squarify [w1; w2] 0 0 side side = Ok rects
               ∧ length rects = 2%nat.
Proof.
  intros w1 w2 side.
  assert (H : squarify [w1; w2] 0 0 side side = Raise ZeroDivisionError)
    by (vm_compute; reflexivity).
  split; [reflexivity|]. split; [reflexivity|].
  split; [vm_compute; reflexivity|].
  split.
  { eexists _, _, _. split; [vm_compute; reflexivity|].
    split; [vm_compute; reflexivity|]. split; [vm_compute; reflexivity|].
    vm_compute. reflexivity. }
  split; [vm_compute; reflexivity|]. split; [exact H|].
  intros (rects & Hrects & _). congruence.
Qed.

(** ** [normalize_sizes] in binary64 *)







(** ** Moving the bounding rectangle *)

(** Two outcomes agree but for the corners: both return, rectangle by
    rectangle with the same sides, or both raise the same exception. *)
Definition same_sides (o o' : res (list Rect)) : Prop :=
  match o, o' with
  | Ok rects, Ok rects' =>
      Forall2 (λ r r', rect_dx r' = rect_dx r ∧ rect_dy r' = rect_dy r)
              rects rects'
  | Raise e, Raise e' => e = e'
  | _, _ => False
  end.

Lemma b64_layoutrow_loop_sides (sizes : list float) (width : float) :
  ∀ x y x' y',
  same_sides (layoutrow_loop sizes x y width) (layoutrow_loop sizes x' y' width).
Proof.
  induction sizes as [|size sizes IH]; intros x y x' y'; simpl.
  { constructor. }
  destruct (div size width) as [h|e]; simpl; [|done].
  specialize (IH x (y + h) x' (y' + h)). unfold same_sides in *.
  destruct (layoutrow_loop sizes x (y + h) width),
           (layoutrow_loop sizes x' (y' + h) width); simpl; try done.
  by constructor.
Qed.

Lemma b64_layoutcol_loop_sides (sizes : list float) (height : float) :
  ∀ x y x' y',
  same_sides (layoutcol_loop sizes x y height) (layoutcol_loop sizes x' y' height).
Proof.
  induction sizes as [|size sizes IH]; intros x y x' y'; simpl.
  { constructor. }
  destruct (div size height) as [w|e]; simpl; [|done].
  specialize (IH (x + w) y (x' + w) y'). unfold same_sides in *.
  destruct (layoutcol_loop sizes (x + w) y height),
           (layoutcol_loop sizes (x' + w) y' height); simpl; try done.
  by constructor.
Qed.

Lemma b64_layout_sides (sizes : list float) (x y x' y' dx dy : float) :
  same_sides (layout sizes x y dx dy) (layout sizes x' y' dx dy).
Proof.
  unfold layout, layoutrow, layoutcol.
  destruct (PrimFloat.leb dy dx).
  - destruct (div (sum sizes) dy) as [width|e]; simpl; [|done].
    apply b64_layoutrow_loop_sides.
  - destruct (div (sum sizes) dx) as [height|e]; simpl; [|done].
    apply b64_layoutcol_loop_sides.
Qed.

Lemma b64_ratios_sides (rects rects' : list Rect) :
  Forall2 (λ r r', rect_dx r' = rect_dx r ∧ rect_dy r' = rect_dy r) rects rects' →
  ratios rects = ratios rects'.
Proof.
  induction 1 as [|r r' rects rects' [Hdx Hdy] _ IH]; simpl; [done|].
  by rewrite Hdx, Hdy, IH.
Qed.

Lemma b64_worst_ratio_position (sizes : list float) (x y x' y' dx dy : float) :
  worst_ratio sizes x y dx dy = worst_ratio sizes x' y' dx dy.
Proof.
  unfold worst_ratio.
  pose proof (b64_layout_sides sizes x y x' y' dx dy) as H.
  unfold same_sides in H.
  destruct (layout sizes x y dx dy), (layout sizes x' y' dx dy);
    simpl; try done.
  - by rewrite (b64_ratios_sides _ _ H).
  - by subst.
Qed.

Lemma b64_split_loop_position (sizes : list float) (x y x' y' dx dy : float)
    (n : nat) :
  ∀ i, (length sizes - i ≤ n)%nat →
  split_loop sizes x y dx dy i = split_loop sizes x' y' dx dy i.
Proof.
  induction n as [|n IH]; intros i Hn;
    rewrite (b64_split_loop_eq sizes x y), (b64_split_loop_eq sizes x' y');
    destruct (i <? length sizes)%nat eqn:Hi; try done.
  { apply Nat.ltb_lt in Hi. lia. }
  apply Nat.ltb_lt in Hi.
  rewrite (b64_worst_ratio_position (take i sizes) x y x' y').
  rewrite (b64_worst_ratio_position (take (i + 1) sizes) x y x' y').
  destruct (worst_ratio (take i sizes) x' y' dx dy) as [w1|]; simpl; [|done].
  destruct (worst_ratio (take (i + 1) sizes) x' y' dx dy) as [w2|];
    simpl; [|done].
  destruct (PrimFloat.leb w2 w1); [|done]. apply IH. lia.
Qed.

Lemma b64_leftover_sides (sizes : list float) (x y x' y' dx dy : float) :
  match leftover sizes x y dx dy, leftover sizes x' y' dx dy with
  | Ok (_, _, ldx, ldy), Ok (_, _, ldx', ldy') => ldx' = ldx ∧ ldy' = ldy
  | Raise e, Raise e' => e = e'
  | _, _ => False
  end.
Proof.
  unfold leftover, leftoverrow, leftovercol.
  destruct (PrimFloat.leb dy dx).
  - destruct (div (sum sizes) dy) as [width|e]; simpl; done.
  - destruct (div (sum sizes) dx) as [height|e]; simpl; done.
Qed.

Lemma b64_squarify_sides (n : nat) :
  ∀ (sizes : list float) (x y x' y' dx dy : float),
  (length sizes ≤ n)%nat →
  same_sides (squarify sizes x y dx dy) (squarify sizes x' y' dx dy).
Proof.
  induction n as [|n IH]; intros sizes x y x' y' dx dy Hn.
  { destruct sizes; [|simpl in Hn; lia]. rewrite !b64_squarify_eq. constructor. }
  rewrite (b64_squarify_eq sizes x y), (b64_squarify_eq sizes x' y').
  destruct sizes as [|s1 [|s2 sizes]].
  { constructor. }
  { apply b64_layout_sides. }
  set (l := s1 :: s2 :: sizes) in *.
  rewrite (b64_split_loop_position l x y x' y' dx dy (length l) 1) by lia.
  destruct (split_loop l x' y' dx dy 1) as [i|e] eqn:Hsplit; simpl; [|done].
  apply b64_split_loop_bounds in Hsplit.
  pose proof (b64_leftover_sides (take i l) x y x' y' dx dy) as Hleft.
  destruct (leftover (take i l) x y dx dy) as [[[[lx ly] ldx] ldy]|e],
           (leftover (take i l) x' y' dx dy) as [[[[lx' ly'] ldx'] ldy']|e'];
    simpl; try done.
  destruct Hleft as [-> ->].
  pose proof (b64_layout_sides (take i l) x y x' y' dx dy) as Hlay.
  unfold same_sides in Hlay.
  destruct (layout (take i l) x y dx dy) as [current|e],
           (layout (take i l) x' y' dx dy) as [current'|e'];
    simpl; try done.
  assert (Hlen : (length (drop i l) ≤ n)%nat).
  { rewrite length_drop. simpl in Hn. unfold l. simpl. lia. }
  pose proof (IH (drop i l) lx ly lx' ly' ldx ldy Hlen) as Hrec.
  unfold same_sides in *.
  destruct (squarify (drop i l) lx ly ldx ldy) as [remaining|e],
           (squarify (drop i l) lx' ly' ldx ldy) as [remaining'|e'];
    simpl; try done.
  by apply Forall2_app.
Qed.

(** Where the bounding rectangle lies does not matter to the sizes:
    called with another corner, [squarify] raises the same exception,
    or returns as many rectangles, each with the very same sides.  Only
    the corners of the rectangles depend on [(x, y)]. *)
Theorem squarify_sides_independent_of_position
    (sizes : list float) (x y x' y' dx dy : float) :
  match squarify sizes x y dx dy, squarify sizes x' y' dx dy with
  | Ok rects, Ok rects' =>
      Forall2 (λ r r', rect_dx r' = rect_dx r ∧ rect_dy r' = rect_dy r)
              rects rects'
  | Raise e, Raise e' => e = e'
  | _, _ => False
  end.
Proof. apply (b64_squarify_sides (length sizes)). lia. Qed.

End Binary64_layout.
